(** * Vanity transaction-hash deployer: the parallel fee search of [src/main.rs]

    A shallow embedding of the search engine of [main.rs]: the fee-space
    partition of the worker tasks, the batch generator, [process_batch]
    (prefix matcher and cancellation flag), the worker loop and the
    orchestrator, and [get_contract_address] (RLP + Keccak-256).

    Conventions of the embedding:
    - [U256] values are [Z] in [0, 2^256); the [uint] crate's [+] and [*]
      panic on overflow ([checked] below returns [None] for the panic),
      [saturating_add] caps at [2^256 - 1];
    - bytes are [Byte.byte], a [[u8; 32]] is a [list byte] of length 32;
    - strings are Stdlib [string]s (lists of 8-bit [ascii]), which is how
      Rust's [str::starts_with] compares them: byte by byte;
    - the wallet's signer ([encode_and_sign_eip1559]) is a Section variable:
      a function from the filled-in request to [Ok (signed_rlp, tx_hash)]
      ([Some]) or [Err] ([None]). *)

From Stdlib Require Import ZArith Lia Ascii String Strings.Byte.
From stdpp Require Import base list relations.
Import ListNotations.
Open Scope Z_scope.

(* ------------------------------------------------------------------ *)
(** ** Constants of [main.rs] *)

Definition BUFFER_SIZE : nat := 1024.
Definition BATCH_SIZE : nat := 1000.
Definition DEFAULT_THREAD_COUNT : nat := 8.
Definition THREAD_OFFSET_SPACING : Z := 100000000.

(** [let base_fee_start = U256::from(18_000_000u64);] *)
Definition base_fee_start : Z := 18000000.
(** [let priority_fee = U256::from(1_250_000u64);] *)
Definition priority_fee : Z := 1250000.

(** [let thread_count = num_cpus::get().min(DEFAULT_THREAD_COUNT);] *)
Definition thread_count (num_cpus : nat) : nat := Nat.min num_cpus DEFAULT_THREAD_COUNT.

(* ------------------------------------------------------------------ *)
(** ** Fixed-width arithmetic *)

Module U256.
Definition MAX : Z := 2 ^ 256 - 1.
(** [a + b] on [U256]: panics ([None]) on overflow. *)
Definition add (a b : Z) : option Z :=
  if a + b <=? MAX then Some (a + b) else None.

(** [a * b] on [U256]: panics ([None]) on overflow. *)
Definition mul (a b : Z) : option Z :=
  if a * b <=? MAX then Some (a * b) else None.

(** [a.saturating_add(b)]. *)
Definition saturating_add (a b : Z) : Z := Z.min (a + b) MAX.
End U256.

Module U64.
Definition MAX : Z := 2 ^ 64 - 1.
(** [a * b] on [u64], with the overflow check of a debug build; for the
    worker indices that occur ([i < 8]) it never triggers. *)
Definition mul (a b : Z) : option Z :=
  if a * b <=? MAX then Some (a * b) else None.
End U64.

(* ------------------------------------------------------------------ *)
(** ** The transaction request *)

(** The fields of [Eip1559TransactionRequest] that [main] sets. *)
Record Eip1559Tx := mkTx {
  tx_to : option (list byte);
  tx_data : option (list byte);
  tx_nonce : option Z;
  tx_gas : option Z;
  tx_chain_id : option Z;
  max_fee_per_gas : option Z;
  max_priority_fee_per_gas : option Z
}.

(** The template built in [main]: [to = None], [data], [nonce], [gas],
    [chain_id]; no fee fields yet. *)
Definition make_template (calldata : list byte) (nonce gas_limit chain_id : Z) : Eip1559Tx :=
  {| tx_to := None; tx_data := Some calldata; tx_nonce := Some nonce;
     tx_gas := Some gas_limit; tx_chain_id := Some chain_id;
     max_fee_per_gas := None; max_priority_fee_per_gas := None |}.

(** [tx.max_fee_per_gas = Some(mf); tx.max_priority_fee_per_gas = Some(p);]
    on a clone of the template. *)
Definition set_fees (tmpl : Eip1559Tx) (mf p : Z) : Eip1559Tx :=
  {| tx_to := tx_to tmpl; tx_data := tx_data tmpl; tx_nonce := tx_nonce tmpl;
     tx_gas := tx_gas tmpl; tx_chain_id := tx_chain_id tmpl;
     max_fee_per_gas := Some mf; max_priority_fee_per_gas := Some p |}.

(* ------------------------------------------------------------------ *)
(** ** Fee-space partition (the start of each spawned task) *)

(** [let base_fee_offset = U256::from(i as u64 * THREAD_OFFSET_SPACING);
     let mut base_fee = base_fee_start + base_fee_offset;] *)
Definition worker_start (i : nat) : option Z :=
  match U64.mul (Z.of_nat i) THREAD_OFFSET_SPACING with
  | Some off => U256.add base_fee_start off
  | None => None
  end.

(* ------------------------------------------------------------------ *)
(** ** Batch generation (the [for _ in 0..BATCH_SIZE] loop of a task) *)

(** One pass of the inner loop pushes [n] clones of the template with
    [max_fee_per_gas = base_fee + priority_fee] (a panicking [U256] add)
    and [max_priority_fee_per_gas = priority_fee], advancing the cursor
    with [saturating_add(1)]. Returns the batch and the new cursor, or
    [None] when the addition panics. *)
Fixpoint gen_batch (tmpl : Eip1559Tx) (n : nat) (base_fee : Z) : option (list Eip1559Tx * Z) :=
  match n with
  | O => Some ([], base_fee)
  | S n' =>
      match U256.add base_fee priority_fee with
      | None => None
      | Some mf =>
          match gen_batch tmpl n' (U256.saturating_add base_fee 1) with
          | None => None
          | Some (rest, cursor) => Some (set_fees tmpl mf priority_fee :: rest, cursor)
          end
      end
  end.

(** The fee candidates the spec expects from cursor [c]: base fees
    [c, c+1, ..., c+n-1] with the fixed priority fee. *)
Definition expected_batch (tmpl : Eip1559Tx) (n : nat) (c : Z) : list Eip1559Tx :=
  map (fun k => set_fees tmpl (c + Z.of_nat k + priority_fee) priority_fee) (seq 0 n).

(* ------------------------------------------------------------------ *)
(** ** Hex rendering and the prefix matcher *)

(** The alphabet of [hex::encode]: lowercase digits. *)
Definition HEX_CHARS : string := "0123456789abcdef".

Definition hex_char (n : nat) : ascii :=
  match String.get n HEX_CHARS with Some c => c | None => "0"%char end.

(** [hex::encode]: two lowercase digits per byte, high nibble first. *)
Fixpoint hex_encode (bs : list byte) : string :=
  match bs with
  | [] => EmptyString
  | b :: rest =>
      String (hex_char (Byte.to_nat b / 16))
        (String (hex_char (Byte.to_nat b mod 16)) (hex_encode rest))
  end.

(** [format!("0x{}", hex::encode(tx_hash))] *)
Definition render_hash (tx_hash : list byte) : string :=
  String.append "0x" (hex_encode tx_hash).

(** [tx_hash_hex.starts_with(hash_prefix)] *)
Definition hash_matches (hash_prefix : string) (tx_hash : list byte) : bool :=
  String.prefix hash_prefix (render_hash tx_hash).

(* ------------------------------------------------------------------ *)
(** ** Results of the search *)

(** [(signed_rlp, tx_hash, total_fee_wei)], the message of [tx_result]. *)
Record outcome := mkOutcome {
  out_rlp : list byte;
  out_hash : list byte;
  out_total_fee : Z
}.

(** A computation of a task that returns normally or panics (a [U256]
    overflow). *)
Inductive Exec (A : Type) : Type :=
| Ret (a : A)
| Panic.
Arguments Ret {A} a.
Arguments Panic {A}.

(** [Option::unwrap_or_default] on a [U256]. *)
Definition unwrap_or_default (o : option Z) : Z :=
  match o with Some x => x | None => 0 end.

(** [AtomicBool::swap(true)]: the old value and the new flag. *)
Definition swap_true (found : bool) : bool * bool := (found, true).

Definition option_to_list {A} (o : option A) : list A :=
  match o with Some a => [a] | None => [] end.

Section Search.

(** [encode_and_sign_eip1559(wallet, tx)]: [Ok((signed_rlp, tx_hash))] as
    [inr], [Err(report)] as [inl] with the report's message. *)
Variable sign : Eip1559Tx -> string + (list byte * list byte).
(** The lowercased [HASH_PREFIX]. *)
Variable hash_prefix : string.
(** [GAS_LIMIT] as given to [process_batch]. *)
Variable gas_limit : Z.
(** The template behind [tx_template]. *)
Variable tmpl : Eip1559Tx.

(** [let total_fee_wei = gas_limit * tx.max_fee_per_gas.unwrap_or_default();] *)
Definition total_fee (tx : Eip1559Tx) : option Z :=
  U256.mul gas_limit (unwrap_or_default (max_fee_per_gas tx)).

(** [process_batch] run by one task while no other task touches the flag:
    takes the flag and returns it with the [Ok(..)] value (the function
    never returns [Err]) or a panic. *)
Fixpoint process_batch (batch : list Eip1559Tx) (found : bool) : bool * Exec (option outcome) :=
  match batch with
  | [] => (found, Ret None)
  | tx :: rest =>
      if found then (found, Ret None)
      else
        match sign tx with
        | inr (signed_rlp, tx_hash) =>
            if hash_matches hash_prefix tx_hash then
              let (old, found') := swap_true found in
              if negb old then
                match total_fee tx with
                | Some fee => (found', Ret (Some (mkOutcome signed_rlp tx_hash fee)))
                | None => (found', Panic)
                end
              else (found', Ret None)
            else process_batch rest found
        | inl _ => process_batch rest found
        end
  end.

(** *** One task as a sequence of atomic steps

    The only shared mutable data are the flag [found] and the channel;
    each step below does at most one atomic access to the flag
    ([load] or [swap]) or one [send], plus local computation. *)
Inductive wstate :=
| WLoop (base_fee : Z)
    (** at [while !found.load(..)] *)
| WBatch (batch : list Eip1559Tx) (base_fee : Z)
    (** in [process_batch], at [if found.load(..)] for the head of [batch] *)
| WSwap (tx : Eip1559Tx) (signed_rlp tx_hash : list byte) (base_fee : Z)
    (** a match found, at [found.swap(true, ..)] *)
| WSend (o : outcome)
    (** the claimer, at [tx_result.send(..)] *)
| WDone
    (** the task returned [Ok(())] *)
| WPanic.
    (** the task panicked *)

(** The step of a task from the current flag: the new flag, the new local
    state and the message sent, if any. *)
Definition wstep (found : bool) (w : wstate) : bool * wstate * option outcome :=
  match w with
  | WLoop base_fee =>
      if found then (found, WDone, None)
      else match gen_batch tmpl BATCH_SIZE base_fee with
           | Some (batch, base_fee') => (found, WBatch batch base_fee', None)
           | None => (found, WPanic, None)
           end
  | WBatch [] base_fee => (found, WLoop base_fee, None)
  | WBatch (tx :: rest) base_fee =>
      if found then (found, WLoop base_fee, None)
      else match sign tx with
           | inr (signed_rlp, tx_hash) =>
               if hash_matches hash_prefix tx_hash
               then (found, WSwap tx signed_rlp tx_hash base_fee, None)
               else (found, WBatch rest base_fee, None)
           | inl _ => (found, WBatch rest base_fee, None)
           end
  | WSwap tx signed_rlp tx_hash base_fee =>
      let (old, found') := swap_true found in
      if negb old then
        match total_fee tx with
        | Some fee => (found', WSend (mkOutcome signed_rlp tx_hash fee), None)
        | None => (found', WPanic, None)
        end
      else (found', WLoop base_fee, None)
  | WSend o => (found, WDone, Some o)
  | WDone => (found, WDone, None)
  | WPanic => (found, WPanic, None)
  end.

Definition terminated (w : wstate) : bool :=
  match w with WDone | WPanic => true | _ => false end.

(** *** All tasks, interleaved *)
Record gstate := mkG {
  g_found : bool;
  g_workers : list wstate;
  g_sent : list outcome   (** every message sent on [tx_result], in order *)
}.

Inductive gstep : gstate -> gstate -> Prop :=
| gstep_worker s i w f' w' m :
    g_workers s !! i = Some w ->
    terminated w = false ->
    wstep (g_found s) w = (f', w', m) ->
    gstep s (mkG f' (<[i := w']> (g_workers s)) (g_sent s ++ option_to_list m)).

(** Task [i] right after [tokio::spawn]. *)
Definition worker_init (i : nat) : wstate :=
  match worker_start i with Some b => WLoop b | None => WPanic end.

(** [found = AtomicBool::new(false)], [nthreads] tasks, an empty channel. *)
Definition init (nthreads : nat) : gstate :=
  mkG false (map worker_init (seq 0 nthreads)) [].

Definition reachable (nthreads : nat) (s : gstate) : Prop :=
  rtc gstep (init nthreads) s.

(** One step of task [i], when it is still running. *)
Definition step_task (i : nat) (s : gstate) : gstate :=
  match g_workers s !! i with
  | Some w =>
      if terminated w then s
      else let '(f', w', m) := wstep (g_found s) w in
           mkG f' (<[i := w']> (g_workers s)) (g_sent s ++ option_to_list m)
  | None => s
  end.

(** A concrete interleaving: the tasks of [sched], in order. *)
Fixpoint run (sched : list nat) (s : gstate) : gstate :=
  match sched with
  | [] => s
  | i :: rest => run rest (step_task i s)
  end.

End Search.

(** Concrete signers for the runs below. [stub_sign] stands for a key
    whose hash's first byte is the low byte of the max fee (the other 31
    bytes zero); [failing_sign] for a key that cannot sign at all. *)
Definition stub_sign (tx : Eip1559Tx) : string + (list byte * list byte) :=
  let mf := unwrap_or_default (max_fee_per_gas tx) in
  match Byte.of_nat (Z.to_nat (mf mod 256)) with
  | Some b => inr ([x02], b :: repeat x00 31)
  | None => inl "no byte"%string
  end.

Definition failing_sign (tx : Eip1559Tx) : string + (list byte * list byte) :=
  inl "invalid private key"%string.

Definition demo_tmpl : Eip1559Tx := make_template [x60; x80] 5 21000 1.

(** Two tasks searching for ["0xff"], two steps each. *)
Definition demo_search : gstate :=
  run stub_sign "0xff" 21000 demo_tmpl [0; 1; 0; 1]%nat (init 2).

(** Two tasks racing for the flag (empty prefix, every hash matches): both
    reach the [swap]; task 0 claims and sends, task 1 loses, goes back to
    its loop and returns. *)
Definition demo_race : gstate :=
  run stub_sign "" 21000 demo_tmpl [0; 1; 0; 1; 0; 1; 0; 1]%nat (init 2).

(** One task claiming the flag on its first candidate (empty prefix). *)
Definition demo_claimed : gstate :=
  run stub_sign "" 21000 demo_tmpl [0; 0; 0]%nat (init 1).

(* ------------------------------------------------------------------ *)
(** ** The orchestrator *)

(** Where [main] is in
    [for task in tasks { if let Ok(result) = task.await { if result.is_ok() { break; } } }]:
    awaiting task [k], or past the loop (at [rx_result.recv()]). A task
    that returned [Ok(())] ends the loop; a panicked task ([Err(JoinError)])
    is skipped. *)
Inductive main_pos := MAwait (k : nat) | MRecv.

Fixpoint main_join_from (k : nat) (ws : list wstate) : main_pos :=
  match ws with
  | [] => MRecv
  | w :: ws' =>
      match w with
      | WDone => MRecv
      | WPanic => main_join_from (S k) ws'
      | _ => MAwait k
      end
  end.

(** Live senders of the channel: [main]'s own [tx_result], which lives until
    [main] returns, and the clone held by each task still running. *)
Definition senders_alive (ws : list wstate) : nat :=
  1 + length (List.filter (fun w => negb (terminated w)) ws).

(** [rx_result.recv().await]: the first message; [Some None] once every
    sender is dropped and nothing is buffered; [None] while it blocks. *)
Definition recv (sent : list outcome) (senders : nat) : option (option outcome) :=
  match sent with
  | o :: _ => Some (Some o)
  | [] => if Nat.eqb senders 0 then Some None else None
  end.

(** What [main] prints: ["Match found!"] or ["No solution found (interrupted?)"]. *)
Inductive report := MatchFound (o : outcome) | NoSolution.

(** [main]'s report in a global state, [None] while it is blocked. *)
Definition main_report (s : gstate) : option report :=
  match main_join_from 0 (g_workers s) with
  | MAwait _ => None
  | MRecv =>
      match recv (g_sent s) (senders_alive (g_workers s)) with
      | Some (Some o) => Some (MatchFound o)
      | Some None => Some NoSolution
      | None => None
      end
  end.

(* ------------------------------------------------------------------ *)
(** ** A worker's loop without a match: consecutive batches *)

(** The batches of [b] iterations of the [while] loop from cursor [c],
    concatenated, with the cursor after them. *)
Fixpoint run_batches (tmpl : Eip1559Tx) (b : nat) (c : Z) : option (list Eip1559Tx * Z) :=
  match b with
  | O => Some ([], c)
  | S b' =>
      match gen_batch tmpl BATCH_SIZE c with
      | None => None
      | Some (batch, c') =>
          match run_batches tmpl b' c' with
          | None => None
          | Some (rest, c'') => Some (batch ++ rest, c'')
          end
      end
  end.

(** The fee pair a candidate is signed with. *)
Definition fee_pair (tx : Eip1559Tx) : option Z * option Z :=
  (max_fee_per_gas tx, max_priority_fee_per_gas tx).

(** The candidates of worker [i] in its first [b] batches. *)
Definition worker_candidates (tmpl : Eip1559Tx) (i b : nat) : option (list Eip1559Tx) :=
  match worker_start i with
  | None => None
  | Some c => option_map fst (run_batches tmpl b c)
  end.

(* ------------------------------------------------------------------ *)
(** ** Reading a rendering back *)

(** Position of a character in a string. *)
Fixpoint index_of (c : ascii) (s : string) (k : nat) : option nat :=
  match s with
  | EmptyString => None
  | String d s' => if Ascii.eqb c d then Some k else index_of c s' (S k)
  end.

(** A lowercase hex digit, as [hex::encode] emits them. *)
Definition is_hex_char (c : ascii) : bool :=
  match index_of c HEX_CHARS 0 with Some _ => true | None => false end.

Definition all_hex (s : string) : bool :=
  forallb is_hex_char (list_ascii_of_string s).

(** Decoding of a lowercase hex string, two digits per byte. *)
Fixpoint hex_decode (s : string) : option (list byte) :=
  match s with
  | EmptyString => Some []
  | String hi (String lo rest) =>
      match index_of hi HEX_CHARS 0, index_of lo HEX_CHARS 0, hex_decode rest with
      | Some a, Some b, Some bs =>
          match Byte.of_nat (a * 16 + b) with
          | Some x => Some (x :: bs)
          | None => None
          end
      | _, _, _ => None
      end
  | String _ EmptyString => None
  end.

(** "The rendered hash starts with the target prefix", as a proposition. *)
Definition starts_with (s pre : string) : Prop :=
  exists rest, s = String.append pre rest.

(** No candidate of [txs] is accepted: each either fails to sign or has a
    rendering that does not start with [hash_prefix]. *)
Definition none_accepted (sign : Eip1559Tx -> string + (list byte * list byte))
    (hash_prefix : string) (txs : list Eip1559Tx) : Prop :=
  forall tx signed_rlp tx_hash, tx ∈ txs -> sign tx = inr (signed_rlp, tx_hash) ->
    ~ starts_with (render_hash tx_hash) hash_prefix.

(* ------------------------------------------------------------------ *)
(** ** Invariants of the interleaved search *)

Definition is_send (w : wstate) : bool :=
  match w with WSend _ => true | _ => false end.

(** How many steps of its own a task still takes once the flag is set:
    the loop check exits, a batch first returns to the loop check, a lost
    [swap] breaks out to the loop check, a claimer sends and returns. *)
Definition wrank (w : wstate) : nat :=
  match w with
  | WLoop _ | WSend _ => 1
  | WBatch _ _ | WSwap _ _ _ _ => 2
  | WDone | WPanic => 0
  end.

Section Invariants.
Variable sign : Eip1559Tx -> string + (list byte * list byte).
Variable hash_prefix : string.
Variable gas_limit : Z.
Variable tmpl : Eip1559Tx.

(** A generated candidate: a max fee is set and the template's gas kept. *)
Definition cand_ok (tx : Eip1559Tx) : Prop :=
  (exists mf, max_fee_per_gas tx = Some mf) /\ tx_gas tx = tx_gas tmpl.

(** A published outcome: the signature of a candidate whose hash matches,
    with [total_fee_wei = gas_limit * max_fee_per_gas]. *)
Definition sent_ok (o : outcome) : Prop :=
  exists tx mf,
    sign tx = inr (out_rlp o, out_hash o) /\
    hash_matches hash_prefix (out_hash o) = true /\
    max_fee_per_gas tx = Some mf /\ tx_gas tx = tx_gas tmpl /\
    out_total_fee o = gas_limit * mf.

Definition winv (w : wstate) : Prop :=
  match w with
  | WLoop _ | WDone | WPanic => True
  | WBatch batch _ => Forall cand_ok batch
  | WSwap tx signed_rlp tx_hash _ =>
      cand_ok tx /\ sign tx = inr (signed_rlp, tx_hash) /\
      hash_matches hash_prefix tx_hash = true
  | WSend o => sent_ok o
  end.

(** At most one message, sent or about to be sent, and none before the
    flag is set; every worker and message well formed. *)
Definition ginv (s : gstate) : Prop :=
  (length (g_sent s) + length (List.filter is_send (g_workers s)) <= 1)%nat /\
  (g_found s = false -> g_sent s = [] /\ Forall (fun w => is_send w = false) (g_workers s)) /\
  Forall winv (g_workers s) /\ Forall sent_ok (g_sent s).

(** With a prefix no hash matches: nothing claimed, nothing sent, no task
    returned normally. *)
Definition stuck_inv (s : gstate) : Prop :=
  g_found s = false /\ g_sent s = [] /\
  Forall (fun w => match w with WLoop _ | WBatch _ _ | WPanic => True | _ => False end)
    (g_workers s).

End Invariants.

(** No task returns normally while the flag is clear. *)
Definition clear_inv (s : gstate) : Prop :=
  g_found s = false -> Forall (fun w => w <> WDone) (g_workers s).

(** A set flag has a cause that [main] can see or that explains the
    silence: a message sent, a claimer about to send, or a panicked task. *)
Definition cause_inv (s : gstate) : Prop :=
  g_found s = true ->
  g_sent s <> [] \/
  exists k w, g_workers s !! k = Some w /\ (is_send w = true \/ w = WPanic).

(** The cursor task [i] starts from when its spawn arithmetic does not
    overflow. *)
Definition task_start (i : nat) : Z := base_fee_start + Z.of_nat i * THREAD_OFFSET_SPACING.

(** Where task [i] is in its own fee range: after [k] completed rounds the
    loop cursor is [task_start i + k * BATCH_SIZE]; during round [k + 1]
    the batch being processed is what remains of the [k + 1]-th block of
    [BATCH_SIZE] consecutive fees. *)
Definition wpos_inv (tmpl : Eip1559Tx) (i : nat) (w : wstate) : Prop :=
  match w with
  | WLoop b => exists k, b = task_start i + Z.of_nat (k * BATCH_SIZE)
  | WBatch batch b =>
      exists k pre, b = task_start i + Z.of_nat (S k * BATCH_SIZE) /\
        pre ++ batch = expected_batch tmpl BATCH_SIZE (task_start i + Z.of_nat (k * BATCH_SIZE))
  | WSwap tx _ _ b =>
      exists k, b = task_start i + Z.of_nat (S k * BATCH_SIZE) /\
        tx ∈ expected_batch tmpl BATCH_SIZE (task_start i + Z.of_nat (k * BATCH_SIZE))
  | _ => True
  end.

Definition pos_inv (tmpl : Eip1559Tx) (s : gstate) : Prop :=
  forall i w, g_workers s !! i = Some w -> wpos_inv tmpl i w.


(* ------------------------------------------------------------------ *)
(** ** Keccak-256 ([tiny_keccak::Keccak::v256]) *)

Module Keccak.

Definition mask64 : Z := Z.ones 64.

Definition rotl64 (v : Z) (n : Z) : Z :=
  Z.land (Z.lor (Z.shiftl v n) (Z.shiftr v (64 - n))) mask64.

(** Rotation offsets of rho, by lane index [x + 5 * y]. *)
Definition rho_offsets : list Z :=
  [0; 1; 62; 28; 27; 36; 44; 6; 55; 20; 3; 10; 43; 25; 39;
   41; 45; 15; 21; 8; 18; 2; 61; 56; 14].

(** Round constants of iota. *)
Definition round_constants : list Z :=
  [0x0000000000000001; 0x0000000000008082; 0x800000000000808A; 0x8000000080008000;
   0x000000000000808B; 0x0000000080000001; 0x8000000080008081; 0x8000000000008009;
   0x000000000000008A; 0x0000000000000088; 0x0000000080008009; 0x000000008000000A;
   0x000000008000808B; 0x800000000000008B; 0x8000000000008089; 0x8000000000008003;
   0x8000000000008002; 0x8000000000000080; 0x000000000000800A; 0x800000008000000A;
   0x8000000080008081; 0x8000000000008080; 0x0000000080000001; 0x8000000080008008].

(** The state: 25 lanes of 64 bits, lane [(x, y)] at index [x + 5 * y]. *)
Definition lane (A : list Z) (x y : nat) : Z := nth (x + 5 * y) A 0.

Definition theta (A : list Z) : list Z :=
  let C x := Z.lxor (lane A x 0) (Z.lxor (lane A x 1) (Z.lxor (lane A x 2)
               (Z.lxor (lane A x 3) (lane A x 4)))) in
  let D x := Z.lxor (C ((x + 4) mod 5)%nat) (rotl64 (C ((x + 1) mod 5)%nat) 1) in
  map (fun i => Z.lxor (nth i A 0) (D (i mod 5)%nat)) (seq 0 25).

(** rho and pi: [B[y, 2x+3y] = rot(A[x, y], r[x, y])], written for each
    target lane [(X, Y)], whose source is [x = (X + 3Y) mod 5], [y = X]. *)
Definition rho_pi (A : list Z) : list Z :=
  map (fun i =>
         let X := (i mod 5)%nat in
         let Y := (i / 5)%nat in
         let x := ((X + 3 * Y) mod 5)%nat in
         rotl64 (lane A x X) (nth (x + 5 * X) rho_offsets 0))
      (seq 0 25).

Definition chi (B : list Z) : list Z :=
  map (fun i =>
         let x := (i mod 5)%nat in
         let y := (i / 5)%nat in
         Z.lxor (lane B x y)
           (Z.land (Z.lxor (lane B ((x + 1) mod 5) y) mask64) (lane B ((x + 2) mod 5) y)))
      (seq 0 25).

Definition iota (rc : Z) (A : list Z) : list Z :=
  match A with
  | [] => []
  | a :: rest => Z.lxor a rc :: rest
  end.

Definition keccak_f (A : list Z) : list Z :=
  fold_left (fun st rc => iota rc (chi (rho_pi (theta st)))) round_constants A.

(** Rate of Keccak-256: 1088 bits. *)
Definition RATE : nat := 136.

(** Keccak padding (pad10*1 with the first bit set in [0x01]). *)
Definition pad (m : list Z) : list Z :=
  let k := (RATE - length m mod RATE)%nat in
  if Nat.eqb k 1 then m ++ [0x81]
  else m ++ [0x01] ++ repeat 0 (k - 2) ++ [0x80].

(** Little-endian lane of 8 bytes. *)
Fixpoint le_word (bs : list Z) : Z :=
  match bs with
  | [] => 0
  | b :: rest => b + 256 * le_word rest
  end.

Definition block_lanes (block : list Z) : list Z :=
  map (fun j => le_word (firstn 8 (skipn (8 * j) block))) (seq 0 (RATE / 8)).

Definition xor_lanes (A L : list Z) : list Z :=
  map (fun i => Z.lxor (nth i A 0) (nth i L 0)) (seq 0 25).

Fixpoint absorb (fuel : nat) (A : list Z) (m : list Z) : list Z :=
  match fuel with
  | O => A
  | S fuel' =>
      match m with
      | [] => A
      | _ => absorb fuel' (keccak_f (xor_lanes A (block_lanes (firstn RATE m)))) (skipn RATE m)
      end
  end.

Definition le_bytes8 (w : Z) : list Z :=
  map (fun k => Z.land (Z.shiftr w (8 * Z.of_nat k)) 255) (seq 0 8).

Definition byte_of_Z (z : Z) : byte :=
  match Byte.of_nat (Z.to_nat z) with Some b => b | None => x00 end.

Definition Z_of_byte (b : byte) : Z := Z.of_nat (Byte.to_nat b).

(** [Keccak::v256()], [update(msg)], [finalize(&mut [0u8; 32])]. *)
Definition keccak256 (msg : list byte) : list byte :=
  let m := pad (map Z_of_byte msg) in
  let A := absorb (S (length m)) (repeat 0 25) m in
  map byte_of_Z (flat_map le_bytes8 (firstn 4 A)).

End Keccak.

(* ------------------------------------------------------------------ *)
(** ** RLP ([rlp::RlpStream]) *)

Module Rlp.

(** Big-endian bytes of [n], leading zero bytes dropped. *)
Fixpoint be_min_aux (fuel : nat) (n : Z) (acc : list byte) : list byte :=
  match fuel with
  | O => acc
  | S f => if Z.eqb n 0 then acc
           else be_min_aux f (n / 256) (Keccak.byte_of_Z (n mod 256) :: acc)
  end.

Definition be_min (n : Z) : list byte := be_min_aux 32 n [].

Definition byte_Z (z : Z) : byte := Keccak.byte_of_Z z.

(** [BasicEncoder::encode_value]. *)
Definition encode_value (value : list byte) : list byte :=
  match value with
  | [] => [x80]
  | [b] => if (Byte.to_nat b <? 128)%nat then [b] else byte_Z 129 :: value
  | _ =>
      let len := length value in
      if (len <=? 55)%nat then byte_Z (128 + Z.of_nat len) :: value
      else let sz := be_min (Z.of_nat len) in
           byte_Z (183 + Z.of_nat (length sz)) :: sz ++ value
  end.

(** [Encodable for H160]: the 20 bytes as a value. *)
Definition encode_address (a : list byte) : list byte := encode_value a.

(** [Encodable for U256]: [to_big_endian] with the leading zero bytes
    skipped, as a value. *)
Definition encode_u256 (n : Z) : list byte := encode_value (be_min n).

(** A stream opened by [RlpStream::new_list(n)] with the encodings appended
    so far. *)
Record RlpStream := mkStream { rs_len : nat; rs_items : list (list byte) }.

Definition new_list (n : nat) : RlpStream := mkStream n [].

Definition append (s : RlpStream) (enc : list byte) : RlpStream :=
  mkStream (rs_len s) (rs_items s ++ [enc]).

(** The list prefix of [insert_list_payload]. *)
Definition list_header (len : nat) : list byte :=
  if (len <=? 55)%nat then [byte_Z (192 + Z.of_nat len)]
  else let sz := be_min (Z.of_nat len) in
       byte_Z (247 + Z.of_nat (length sz)) :: sz.

(** [stream.out()]: panics ([None]) while the list is unfinished. *)
Definition out (s : RlpStream) : option (list byte) :=
  if Nat.eqb (length (rs_items s)) (rs_len s) then
    let payload := concat (rs_items s) in Some (list_header (length payload) ++ payload)
  else None.

(** The structured encoding as the Ethereum Yellow Paper defines it, for
    comparison with the stream above. *)
Inductive item := Bytes (bs : list byte) | List (items : list item).

Fixpoint yellow_paper (it : item) : list byte :=
  match it with
  | Bytes x =>
      match x with
      | [b] => if (Byte.to_nat b <? 128)%nat then x
               else byte_Z 129 :: x
      | _ => if (length x <? 56)%nat then byte_Z (128 + Z.of_nat (length x)) :: x
             else byte_Z (183 + Z.of_nat (length (be_min (Z.of_nat (length x)))))
                    :: be_min (Z.of_nat (length x)) ++ x
      end
  | List items =>
      let s := concat (map yellow_paper items) in
      if (length s <? 56)%nat then byte_Z (192 + Z.of_nat (length s)) :: s
      else byte_Z (247 + Z.of_nat (length (be_min (Z.of_nat (length s)))))
             :: be_min (Z.of_nat (length s)) ++ s
  end.

End Rlp.

(** [Address::from_slice]: panics ([None]) unless given 20 bytes. *)
Definition address_from_slice (bs : list byte) : option (list byte) :=
  if Nat.eqb (length bs) 20 then Some bs else None.

(** [get_contract_address(sender, nonce)]. *)
Definition get_contract_address (sender : list byte) (nonce : Z) : option (list byte) :=
  let stream := Rlp.append (Rlp.append (Rlp.new_list 2) (Rlp.encode_address sender))
                           (Rlp.encode_u256 nonce) in
  match Rlp.out stream with
  | None => None
  | Some out =>
      let hash := Keccak.keccak256 out in
      address_from_slice (skipn 12 hash)
  end.

(** The unsigned big-endian value of a byte string. *)
Definition be_value (bs : list byte) : Z :=
  fold_left (fun acc b => acc * 256 + Keccak.Z_of_byte b) bs 0.

(** A published vector: the sender [0x6ac7ea33f8831ea9dcc53393aaa88b25a785dbf0]
    and the addresses of its contracts created at nonces 0 and 1. *)
Definition ref_sender : list byte :=
  [x6a; xc7; xea; x33; xf8; x83; x1e; xa9; xdc; xc5;
   x33; x93; xaa; xa8; x8b; x25; xa7; x85; xdb; xf0].

Definition ref_address_0 : list byte :=
  [xcd; x23; x4a; x47; x1b; x72; xba; x2f; x1c; xcf;
   x0a; x70; xfc; xab; xa6; x48; xa5; xee; xcd; x8d].

Definition ref_address_1 : list byte :=
  [x34; x3c; x43; xa3; x7d; x37; xdf; xf0; x8a; xe8;
   xc4; xa1; x15; x44; xc7; x18; xab; xb4; xfc; xf8].

(* ================================================================== *)
(** * Lemmas on the batch generator *)

Lemma saturating_add_exact a b : a + b <= U256.MAX -> U256.saturating_add a b = a + b.
Proof. unfold U256.saturating_add. lia. Qed.

Lemma add_exact a b : a + b <= U256.MAX -> U256.add a b = Some (a + b).
Proof. unfold U256.add. intros H. destruct (Z.leb_spec (a + b) U256.MAX); [reflexivity | lia]. Qed.

Lemma add_overflow a b : U256.MAX < a + b -> U256.add a b = None.
Proof. unfold U256.add. intros H. destruct (Z.leb_spec (a + b) U256.MAX); [lia | reflexivity]. Qed.

Lemma expected_batch_S tmpl n c :
  expected_batch tmpl (S n) c =
  set_fees tmpl (c + priority_fee) priority_fee :: expected_batch tmpl n (c + 1).
Proof.
  unfold expected_batch. cbn [seq map]. f_equal.
  - f_equal. lia.
  - rewrite <- seq_shift, map_map. apply map_ext. intros k. f_equal. lia.
Qed.

Lemma expected_batch_app tmpl n m c :
  expected_batch tmpl (n + m) c =
  expected_batch tmpl n c ++ expected_batch tmpl m (c + Z.of_nat n).
Proof.
  revert c. induction n as [|n IH]; intros c.
  - change (Z.of_nat 0) with 0. rewrite Z.add_0_r. reflexivity.
  - rewrite Nat.add_succ_l, !expected_batch_S, IH. cbn. f_equal. f_equal. f_equal. lia.
Qed.

(** No overflow: the batch is [c, ..., c+n-1] and the cursor ends at [c+n]. *)
Lemma gen_batch_spec tmpl n c :
  0 <= c -> c + Z.of_nat n + priority_fee <= U256.MAX + 1 ->
  gen_batch tmpl n c = Some (expected_batch tmpl n c, c + Z.of_nat n).
Proof.
  revert c. induction n as [|n IH]; intros c Hc Hle.
  - cbn. f_equal. f_equal. lia.
  - assert (Hp : priority_fee = 1250000) by reflexivity.
    cbn [gen_batch]. rewrite add_exact by lia. rewrite saturating_add_exact by lia.
    rewrite IH by lia. rewrite expected_batch_S. do 2 f_equal. lia.
Qed.

(** Overflow: some [base_fee + priority_fee] of the batch exceeds [U256]. *)
Lemma gen_batch_overflow tmpl n c :
  (1 <= n)%nat -> 0 <= c -> U256.MAX + 1 < c + Z.of_nat n + priority_fee ->
  gen_batch tmpl n c = None.
Proof.
  revert c. induction n as [|n IH]; intros c Hn Hc Hlt; [lia|].
  assert (Hp : priority_fee = 1250000) by reflexivity.
  cbn [gen_batch].
  destruct (Z.leb_spec (c + priority_fee) U256.MAX) as [Hok|Hov].
  - rewrite add_exact by lia. rewrite saturating_add_exact by lia.
    destruct n as [|n]; [lia|]. rewrite IH by lia. reflexivity.
  - rewrite add_overflow by lia. reflexivity.
Qed.

Lemma run_batches_spec tmpl b c :
  0 <= c -> c + Z.of_nat (b * BATCH_SIZE) + priority_fee <= U256.MAX + 1 ->
  run_batches tmpl b c =
  Some (expected_batch tmpl (b * BATCH_SIZE) c, c + Z.of_nat (b * BATCH_SIZE)).
Proof.
  revert c. induction b as [|b IH]; intros c Hc Hle.
  - cbn. f_equal. f_equal. lia.
  - cbn [run_batches]. rewrite gen_batch_spec by lia. rewrite IH by lia.
    replace (S b * BATCH_SIZE)%nat with (BATCH_SIZE + b * BATCH_SIZE)%nat by lia.
    rewrite expected_batch_app. do 2 f_equal. lia.
Qed.

Lemma elem_of_expected_batch tmpl n c tx :
  tx ∈ expected_batch tmpl n c ->
  exists k, (k < n)%nat /\ tx = set_fees tmpl (c + Z.of_nat k + priority_fee) priority_fee.
Proof.
  unfold expected_batch. intros Hin.
  apply list_elem_of_In, in_map_iff in Hin as [k [<- Hk]].
  apply in_seq in Hk. exists k. split; [lia | reflexivity].
Qed.

Lemma worker_start_spec n i :
  (i < thread_count n)%nat ->
  worker_start i = Some (base_fee_start + Z.of_nat i * THREAD_OFFSET_SPACING).
Proof.
  unfold thread_count, DEFAULT_THREAD_COUNT. intros Hi.
  assert (Hi8 : (i < 8)%nat) by lia.
  unfold worker_start, U64.mul, U256.add, U64.MAX, U256.MAX, THREAD_OFFSET_SPACING, base_fee_start.
  destruct (Z.leb_spec (Z.of_nat i * 100000000) (2 ^ 64 - 1)); [|lia].
  destruct (Z.leb_spec (18000000 + Z.of_nat i * 100000000) (2 ^ 256 - 1)); [reflexivity|lia].
Qed.

Lemma U256_MAX_large : 10 ^ 30 < U256.MAX.
Proof. vm_compute. reflexivity. Qed.

(* ================================================================== *)
(** * Fee-space partition and batches *)

(** C3: worker [i] (of the [min(num_cpus, 8)] spawned) starts its cursor at
    [base_fee_start + i * THREAD_OFFSET_SPACING]; two distinct workers that
    each generate at most [THREAD_OFFSET_SPACING] fee values (their first
    [bi], [bj] batches) never sign the same fee pair. *)
Theorem worker_fee_ranges_disjoint (tmpl : Eip1559Tx) (ncpu i j bi bj : nat) :
  (i < thread_count ncpu)%nat -> (j < thread_count ncpu)%nat -> i <> j ->
  Z.of_nat (bi * BATCH_SIZE) <= THREAD_OFFSET_SPACING ->
  Z.of_nat (bj * BATCH_SIZE) <= THREAD_OFFSET_SPACING ->
  worker_start i = Some (base_fee_start + Z.of_nat i * THREAD_OFFSET_SPACING) /\
  exists ci cj,
    worker_candidates tmpl i bi = Some ci /\ worker_candidates tmpl j bj = Some cj /\
    forall tx tx', tx ∈ ci -> tx' ∈ cj -> fee_pair tx <> fee_pair tx'.
Proof.
  intros Hi Hj Hij Hbi Hbj.
  pose proof U256_MAX_large as Hmax.
  assert (Hi8 : (i < 8)%nat) by (unfold thread_count, DEFAULT_THREAD_COUNT in Hi; lia).
  assert (Hj8 : (j < 8)%nat) by (unfold thread_count, DEFAULT_THREAD_COUNT in Hj; lia).
  unfold THREAD_OFFSET_SPACING in *.
  assert (Hp : priority_fee = 1250000) by reflexivity.
  assert (Hs : base_fee_start = 18000000) by reflexivity.
  split; [apply (worker_start_spec ncpu); exact Hi|].
  unfold worker_candidates.
  rewrite (worker_start_spec ncpu i Hi), (worker_start_spec ncpu j Hj).
  unfold THREAD_OFFSET_SPACING.
  rewrite !run_batches_spec by lia. cbn [option_map fst].
  eexists _, _. split; [reflexivity|]. split; [reflexivity|].
  intros tx tx' Htx Htx' Heq.
  apply elem_of_expected_batch in Htx as [k [Hk ->]].
  apply elem_of_expected_batch in Htx' as [k' [Hk' ->]].
  unfold fee_pair in Heq. cbn in Heq. injection Heq as Heq.
  lia.
Qed.

Lemma worker_fee_ranges_disjoint_witness :
  ((0 < thread_count 8)%nat /\ (1 < thread_count 8)%nat /\ 0%nat <> 1%nat /\
   Z.of_nat (100 * BATCH_SIZE) <= THREAD_OFFSET_SPACING /\
   Z.of_nat (3 * BATCH_SIZE) <= THREAD_OFFSET_SPACING) /\
  (worker_start 0 = Some (base_fee_start + Z.of_nat 0 * THREAD_OFFSET_SPACING) /\
   exists ci cj,
     worker_candidates (make_template [] 5 21000 1) 0 100 = Some ci /\
     worker_candidates (make_template [] 5 21000 1) 1 3 = Some cj /\
     forall tx tx', tx ∈ ci -> tx' ∈ cj -> fee_pair tx <> fee_pair tx').
Proof.
  assert (H : (0 < thread_count 8)%nat /\ (1 < thread_count 8)%nat /\ 0%nat <> 1%nat /\
   Z.of_nat (100 * BATCH_SIZE) <= THREAD_OFFSET_SPACING /\
   Z.of_nat (3 * BATCH_SIZE) <= THREAD_OFFSET_SPACING).
  { unfold thread_count, DEFAULT_THREAD_COUNT, BATCH_SIZE, THREAD_OFFSET_SPACING. lia. }
  split; [exact H|].
  destruct H as (H0 & H1 & H01 & Hb0 & Hb1).
  exact (worker_fee_ranges_disjoint (make_template [] 5 21000 1) 8 0 1 100 3 H0 H1 H01 Hb0 Hb1).
Defined.

(** C4 (as amended): from a cursor [c], one batch step yields exactly the
    [n] candidates with base fees [c, c+1, ..., c+n-1] (max fee = base fee
    + priority fee, priority fee fixed) and leaves the cursor at [c+n],
    provided the largest max fee [c+n-1+priority_fee] fits in [U256];
    otherwise a [U256] addition overflows and the task panics. *)
Theorem gen_batch_consecutive (tmpl : Eip1559Tx) (n : nat) (c : Z) :
  (1 <= n)%nat -> 0 <= c ->
  gen_batch tmpl n c =
  if c + Z.of_nat n - 1 + priority_fee <=? U256.MAX
  then Some (expected_batch tmpl n c, c + Z.of_nat n)
  else None.
Proof.
  intros Hn Hc.
  destruct (Z.leb_spec (c + Z.of_nat n - 1 + priority_fee) U256.MAX).
  - apply gen_batch_spec; lia.
  - apply gen_batch_overflow; lia.
Qed.

Lemma gen_batch_consecutive_witness :
  (1 <= BATCH_SIZE)%nat /\ 0 <= base_fee_start /\
  gen_batch (make_template [] 5 21000 1) BATCH_SIZE base_fee_start =
  Some (expected_batch (make_template [] 5 21000 1) BATCH_SIZE base_fee_start,
        base_fee_start + Z.of_nat BATCH_SIZE).
Proof.
  assert (H1 : (1 <= BATCH_SIZE)%nat) by (unfold BATCH_SIZE; lia).
  assert (H2 : 0 <= base_fee_start) by (unfold base_fee_start; lia).
  split; [exact H1|]. split; [exact H2|].
  rewrite (gen_batch_consecutive (make_template [] 5 21000 1) BATCH_SIZE base_fee_start H1 H2).
  vm_compute. reflexivity.
Defined.

(** C4, counterexample: at the cursor [2^256 - 1] the batch step does not
    produce a batch: [base_fee + priority_fee] overflows and panics. *)
Lemma gen_batch_at_u256_max :
  gen_batch (make_template [] 5 21000 1) BATCH_SIZE U256.MAX = None.
Proof. vm_compute. reflexivity. Qed.

(* ================================================================== *)
(** * Lemmas on the rendering and the matcher *)

Lemma prefix_iff (pre s : string) :
  String.prefix pre s = true <-> starts_with s pre.
Proof.
  unfold starts_with. revert s. induction pre as [|a pre IH]; intros s; split.
  - intros _. exists s. reflexivity.
  - intros _. destruct s; reflexivity.
  - destruct s as [|b s]; cbn; [discriminate|].
    destruct (ascii_dec a b) as [->|]; [|discriminate].
    intros H. apply IH in H as [rest ->]. exists rest. reflexivity.
  - intros [rest ->]. cbn. destruct (ascii_dec a a); [|congruence].
    apply IH. exists rest. reflexivity.
Qed.

Lemma byte_hex_roundtrip (b : byte) :
  index_of (hex_char (Byte.to_nat b / 16)) HEX_CHARS 0 = Some (Byte.to_nat b / 16)%nat /\
  index_of (hex_char (Byte.to_nat b mod 16)) HEX_CHARS 0 = Some (Byte.to_nat b mod 16)%nat /\
  Byte.of_nat (Byte.to_nat b / 16 * 16 + Byte.to_nat b mod 16)%nat = Some b.
Proof. destruct b; vm_compute; repeat split. Qed.

Lemma hex_decode_encode (h : list byte) : hex_decode (hex_encode h) = Some h.
Proof.
  induction h as [|b h IH]; [reflexivity|].
  cbn [hex_encode hex_decode].
  destruct (byte_hex_roundtrip b) as (E1 & E2 & E3).
  rewrite E1, E2, IH, E3. reflexivity.
Qed.

Lemma hex_encode_length (h : list byte) :
  String.length (hex_encode h) = (2 * length h)%nat.
Proof. induction h as [|b h IH]; cbn [hex_encode String.length length]; lia. Qed.

Lemma hex_char_is_hex (n : nat) : (n < 16)%nat -> is_hex_char (hex_char n) = true.
Proof.
  intros Hn.
  do 16 (destruct n as [|n]; [reflexivity|]). lia.
Qed.

Lemma hex_encode_all_hex (h : list byte) : all_hex (hex_encode h) = true.
Proof.
  unfold all_hex. induction h as [|b h IH]; [reflexivity|].
  cbn [hex_encode list_ascii_of_string forallb].
  rewrite IH, !hex_char_is_hex; [reflexivity| |].
  - apply Nat.mod_upper_bound. lia.
  - pose proof (Byte.to_nat_bounded b) as Hb. apply Nat.Div0.div_lt_upper_bound. lia.
Qed.

(** [process_batch] on a clear flag returns the first candidate, in batch
    order, that signs and whose rendering starts with the prefix, or
    nothing when there is none. *)
Lemma process_batch_first_match sign p gas (batch : list Eip1559Tx) :
  (process_batch sign p gas batch false = (false, Ret None) /\ none_accepted sign p batch) \/
  (exists pre tx rest signed_rlp tx_hash,
     batch = pre ++ tx :: rest /\ none_accepted sign p pre /\
     sign tx = inr (signed_rlp, tx_hash) /\ starts_with (render_hash tx_hash) p /\
     process_batch sign p gas batch false =
       (true, match total_fee gas tx with
              | Some fee => Ret (Some (mkOutcome signed_rlp tx_hash fee))
              | None => Panic
              end)).
Proof.
  induction batch as [|tx rest IH].
  - left. split; [reflexivity|]. intros tx ? ? Hin. inversion Hin.
  - cbn [process_batch].
    destruct (sign tx) as [err|[signed_rlp tx_hash]] eqn:Hs.
    + destruct IH as [[Hpb Hna] | (pre & tx' & rest' & r & h & -> & Hna & Hs' & Hsw & Hpb)].
      * left. split; [exact Hpb|]. intros y r h Hin Hy.
        apply elem_of_cons in Hin as [->|Hin]; [congruence|]. eapply Hna; eauto.
      * right. exists (tx :: pre), tx', rest', r, h. repeat split; auto.
        intros y r' h' Hin Hy.
        apply elem_of_cons in Hin as [->|Hin]; [congruence|]. eapply Hna; eauto.
    + destruct (hash_matches p tx_hash) eqn:Hm.
      * right. exists [], tx, rest, signed_rlp, tx_hash. repeat split; auto.
        -- intros y ? ? Hin. inversion Hin.
        -- apply prefix_iff. exact Hm.
        -- cbn. destruct (total_fee gas tx); reflexivity.
      * assert (Hno : ~ starts_with (render_hash tx_hash) p).
        { intros Hsw. apply prefix_iff in Hsw. unfold hash_matches in Hm. congruence. }
        destruct IH as [[Hpb Hna] | (pre & tx' & rest' & r & h & -> & Hna & Hs' & Hsw & Hpb)].
        -- left. split; [exact Hpb|]. intros y r h Hin Hy.
           apply elem_of_cons in Hin as [->|Hin].
           ++ rewrite Hs in Hy. injection Hy as <- <-. exact Hno.
           ++ eapply Hna; eauto.
        -- right. exists (tx :: pre), tx', rest', r, h. repeat split; auto.
           intros y r' h' Hin Hy.
           apply elem_of_cons in Hin as [->|Hin].
           ++ rewrite Hs in Hy. injection Hy as <- <-. exact Hno.
           ++ eapply Hna; eauto.
Qed.

(* ================================================================== *)
(** * The prefix matcher *)

(** C2: the matcher renders the hash as ["0x"] followed by its lowercase
    hex digits (two per byte, decoding back to the hash) and accepts a
    hash exactly when that rendering starts with the target prefix; in
    [process_batch] the accepted candidate is the first one of the batch
    that signs and whose rendering starts with the prefix, and none is
    accepted when no such candidate exists. *)
Theorem matcher_exact (sign : Eip1559Tx -> string + (list byte * list byte))
    (hash_prefix : string) (gas_limit : Z) (batch : list Eip1559Tx) (tx_hash : list byte) :
  (hash_matches hash_prefix tx_hash = true <-> starts_with (render_hash tx_hash) hash_prefix) /\
  render_hash tx_hash = String.append "0x" (hex_encode tx_hash) /\
  all_hex (hex_encode tx_hash) = true /\
  hex_decode (hex_encode tx_hash) = Some tx_hash /\
  String.length (hex_encode tx_hash) = (2 * length tx_hash)%nat /\
  ((process_batch sign hash_prefix gas_limit batch false = (false, Ret None) /\
    none_accepted sign hash_prefix batch) \/
   (exists pre tx rest signed_rlp h,
      batch = pre ++ tx :: rest /\ none_accepted sign hash_prefix pre /\
      sign tx = inr (signed_rlp, h) /\ starts_with (render_hash h) hash_prefix /\
      process_batch sign hash_prefix gas_limit batch false =
        (true, match total_fee gas_limit tx with
               | Some fee => Ret (Some (mkOutcome signed_rlp h fee))
               | None => Panic
               end))).
Proof.
  split; [apply prefix_iff|].
  split; [reflexivity|].
  split; [apply hex_encode_all_hex|].
  split; [apply hex_decode_encode|].
  split; [apply hex_encode_length|].
  apply process_batch_first_match.
Qed.

(* ================================================================== *)
(** * Invariants of the interleaved search *)

Lemma filter_insert_count {A} (P : A -> bool) (l : list A) (i : nat) (x y : A) :
  l !! i = Some x ->
  (length (List.filter P (<[i := y]> l)) + (if P x then 1 else 0) =
   length (List.filter P l) + (if P y then 1 else 0))%nat.
Proof.
  revert i. induction l as [|z l IH]; intros i Hi; [discriminate|].
  destruct i as [|i].
  - injection Hi as ->. change (<[0%nat := y]> (x :: l)) with (y :: l).
    cbn [List.filter]. destruct (P x), (P y); cbn [length]; lia.
  - change (<[S i := y]> (z :: l)) with (z :: <[i := y]> l).
    specialize (IH i Hi). cbn [List.filter]. destruct (P z); cbn [length]; lia.
Qed.

Lemma gen_batch_cand_ok tmpl n c batch c' :
  gen_batch tmpl n c = Some (batch, c') -> Forall (cand_ok tmpl) batch.
Proof.
  revert c batch c'. induction n as [|n IH]; intros c batch c' Hg; cbn in Hg.
  - injection Hg as <- _. constructor.
  - destruct (U256.add c priority_fee) as [mf|]; [|discriminate].
    destruct (gen_batch tmpl n (U256.saturating_add c 1)) as [[rest cur]|] eqn:Hr; [|discriminate].
    injection Hg as <- _. constructor; [|eapply IH; eauto].
    split; [exists mf; reflexivity | reflexivity].
Qed.

Lemma wstep_found_mono sign p gas tmpl f w f' w' m :
  wstep sign p gas tmpl f w = (f', w', m) -> f = true -> f' = true.
Proof.
  intros Hs ->. destruct w as [b|[|tx rest] b|tx r h b|o| |]; cbn in Hs;
    repeat match type of Hs with
           | context [match ?x with _ => _ end] => destruct x
           end;
    congruence.
Qed.

Lemma gstep_found_mono sign p gas tmpl s s' :
  gstep sign p gas tmpl s s' -> g_found s = true -> g_found s' = true.
Proof. intros [s0 i w f' w' m Hi Ht Hs]. cbn. eapply wstep_found_mono; eauto. Qed.

Lemma rtc_found_mono sign p gas tmpl s s' :
  rtc (gstep sign p gas tmpl) s s' -> g_found s = true -> g_found s' = true.
Proof.
  induction 1 as [s|s s1 s' Hst _ IH]; [auto|].
  intros Hf. apply IH. eapply gstep_found_mono; eauto.
Qed.

Lemma ginv_init sign p gas tmpl n : ginv sign p gas tmpl (init n).
Proof.
  unfold ginv, init. cbn [g_sent g_workers g_found length].
  assert (Hw : forall l, Forall (fun w => is_send w = false /\ winv sign p gas tmpl w) (map worker_init l)).
  { intros l. apply Forall_forall. intros w Hin.
    apply list_elem_of_In, in_map_iff in Hin as [i [<- _]].
    unfold worker_init. destruct (worker_start i); split; cbn; auto. }
  assert (Hf : forall l, List.filter is_send (map worker_init l) = []).
  { induction l as [|i l IH]; [reflexivity|]. cbn. rewrite IH.
    unfold worker_init. destruct (worker_start i); reflexivity. }
  rewrite Hf. repeat split; cbn; auto.
  - eapply Forall_impl; [apply Hw|]. intros w [Hs _]. exact Hs.
  - eapply Forall_impl; [apply Hw|]. intros w [_ Hv]. exact Hv.
Qed.

(** The three kinds of task step: local ones, the [swap], the [send]. *)
Lemma wstep_cases sign p gas tmpl f w f' w' m :
  terminated w = false -> winv sign p gas tmpl w ->
  wstep sign p gas tmpl f w = (f', w', m) ->
  (m = None /\ f' = f /\ is_send w = false /\ is_send w' = false /\ winv sign p gas tmpl w') \/
  (m = None /\ f' = true /\ is_send w = false /\ (f = true -> is_send w' = false) /\
   winv sign p gas tmpl w') \/
  (exists o, m = Some o /\ f' = f /\ is_send w = true /\ is_send w' = false /\
   sent_ok sign p gas tmpl o /\ winv sign p gas tmpl w').
Proof.
  intros Ht Hw Hs.
  destruct w as [b|[|tx rest] b|tx r h b|o| |]; cbn in Ht, Hw; cbv beta iota delta [wstep swap_true] in Hs; try discriminate.
  - (* WLoop *)
    left. destruct f; cbv beta iota in Hs.
    + injection Hs as <- <- <-. repeat split; exact I.
    + destruct (gen_batch tmpl BATCH_SIZE b) as [[batch b']|] eqn:Hg;
        injection Hs as <- <- <-; repeat split; cbn; auto.
      eapply gen_batch_cand_ok; eauto.
  - (* WBatch [] *)
    left. injection Hs as <- <- <-. repeat split; exact I.
  - (* WBatch (tx :: rest) *)
    left. apply Forall_cons in Hw as [Htx Hrest].
    destruct f; cbv beta iota in Hs; [injection Hs as <- <- <-; repeat split; exact I|].
    destruct (sign tx) as [err|[r h]] eqn:Hsg.
    + injection Hs as <- <- <-. repeat split; cbn; auto.
    + destruct (hash_matches p h) eqn:Hm; injection Hs as <- <- <-.
      * do 4 (split; [reflexivity|]). exact (conj Htx (conj Hsg Hm)).
      * repeat split; cbn; auto.
  - (* WSwap *)
    right; left. destruct Hw as (Hc & Hsg & Hm).
    destruct f; cbv beta iota in Hs.
    + injection Hs as <- <- <-. repeat split; auto.
    + destruct Hc as [[mf Hmf] Hgas].
      unfold total_fee in Hs. rewrite Hmf in Hs. cbn in Hs.
      destruct (U256.mul gas mf) as [fee|] eqn:Hmul; injection Hs as <- <- <-;
        repeat split; auto; try discriminate.
      cbn. exists tx, mf. cbn. repeat split; auto.
      unfold U256.mul in Hmul. destruct (_ <=? _); congruence.
  - (* WSend *)
    right; right. injection Hs as <- <- <-. exists o. repeat split; auto.
Qed.

Lemma filter_none_sent (l : list wstate) :
  Forall (fun w => is_send w = false) l -> List.filter is_send l = [].
Proof.
  induction 1 as [|w l Hw _ IH]; [reflexivity|]. cbn. rewrite Hw. exact IH.
Qed.

Lemma ginv_step sign p gas tmpl s s' :
  ginv sign p gas tmpl s -> gstep sign p gas tmpl s s' -> ginv sign p gas tmpl s'.
Proof.
  intros (Hcnt & Hclr & Hw & Hsent) Hst.
  destruct Hst as [s i w f' w' m Hi Ht Hs].
  pose proof (Forall_lookup_1 _ _ _ _ Hw Hi) as Hwi.
  pose proof (filter_insert_count is_send (g_workers s) i w w' Hi) as Hc.
  unfold ginv. cbn [g_sent g_workers g_found].
  destruct (wstep_cases _ _ _ _ _ _ _ _ _ Ht Hwi Hs)
    as [(-> & -> & Hsw & Hsw' & Hw')|[(-> & -> & Hsw & Hsw' & Hw')|(o & -> & -> & Hsw & Hsw' & Hok & Hw')]];
    cbn [option_to_list]; rewrite ?app_nil_r.
  - rewrite Hsw, Hsw' in Hc. split; [lia|]. split.
    + intros Hf. destruct (Hclr Hf) as [Hnil Hns].
      split; [exact Hnil | apply Forall_insert; auto].
    + split; [apply Forall_insert; auto | exact Hsent].
  - rewrite Hsw in Hc. split.
    + destruct (g_found s) eqn:Hf.
      * rewrite Hsw' in Hc by reflexivity. lia.
      * destruct (Hclr eq_refl) as [Hnil Hns]. rewrite Hnil.
        rewrite (filter_none_sent _ Hns) in Hc. cbn. destruct (is_send w'); cbn in Hc |- *; lia.
    + split; [discriminate|].
      split; [apply Forall_insert; auto | exact Hsent].
  - rewrite Hsw, Hsw' in Hc. split.
    + rewrite length_app. cbn [length]. lia.
    + split.
      * intros Hf. exfalso. destruct (Hclr Hf) as [_ Hns].
        pose proof (Forall_lookup_1 _ _ _ _ Hns Hi) as Hn. cbn in Hn. congruence.
      * split; [apply Forall_insert; auto|].
        apply Forall_app. split; [exact Hsent|]. constructor; [exact Hok | constructor].
Qed.

Lemma ginv_reachable sign p gas tmpl n s :
  reachable sign p gas tmpl n s -> ginv sign p gas tmpl s.
Proof.
  unfold reachable. intros Hr.
  assert (Hgen : forall s0, rtc (gstep sign p gas tmpl) s0 s -> ginv sign p gas tmpl s0 -> ginv sign p gas tmpl s).
  { clear Hr. intros s0 H. induction H as [x|x y z Hxy _ IH]; auto.
    intros Hx. apply IH. eapply ginv_step; eauto. }
  apply (Hgen _ Hr). apply ginv_init.
Qed.

Lemma step_task_reachable sign p gas tmpl i s :
  rtc (gstep sign p gas tmpl) s (step_task sign p gas tmpl i s).
Proof.
  unfold step_task.
  destruct (g_workers s !! i) as [w|] eqn:Hi; [|apply rtc_refl].
  destruct (terminated w) eqn:Ht; [apply rtc_refl|].
  destruct (wstep sign p gas tmpl (g_found s) w) as [[f' w'] m] eqn:Hs.
  apply rtc_once. econstructor; eauto.
Qed.

Lemma run_reachable sign p gas tmpl sched s :
  rtc (gstep sign p gas tmpl) s (run sign p gas tmpl sched s).
Proof.
  revert s. induction sched as [|i sched IH]; intros s; [apply rtc_refl|].
  cbn [run]. eapply rtc_trans; [apply step_task_reachable | apply IH].
Qed.

(** No candidate is ever accepted: the flag stays clear, nothing is sent
    and no task returns normally. *)
Lemma stuck_step sign p gas tmpl s s' :
  (forall tx r h, sign tx = inr (r, h) -> hash_matches p h = false) ->
  stuck_inv s -> gstep sign p gas tmpl s s' -> stuck_inv s'.
Proof.
  intros Hno (Hf & Hsent & Hw) Hst.
  destruct Hst as [s i w f' w' m Hi Ht Hs].
  pose proof (Forall_lookup_1 _ _ _ _ Hw Hi) as Hwi.
  rewrite Hf in Hs.
  assert (Hstep : f' = false /\ m = None /\
                  match w' with WLoop _ | WBatch _ _ | WPanic => True | _ => False end).
  { destruct w as [b|[|tx rest] b|tx r h b|o| |]; cbn in Hwi, Ht; try contradiction; try discriminate;
      cbv beta iota delta [wstep] in Hs.
    - destruct (gen_batch tmpl BATCH_SIZE b) as [[batch b']|];
        injection Hs as <- <- <-; repeat split.
    - injection Hs as <- <- <-; repeat split.
    - destruct (sign tx) as [err|[r h]] eqn:Hsg.
      + injection Hs as <- <- <-; repeat split.
      + rewrite (Hno _ _ _ Hsg) in Hs. injection Hs as <- <- <-; repeat split. }
  destruct Hstep as (-> & -> & Hw'). unfold stuck_inv. cbn [g_found g_sent g_workers option_to_list].
  rewrite Hsent. repeat split; [apply Forall_insert; assumption].
Qed.

Lemma stuck_reachable sign p gas tmpl n s :
  (forall tx r h, sign tx = inr (r, h) -> hash_matches p h = false) ->
  reachable sign p gas tmpl n s -> stuck_inv s.
Proof.
  intros Hno Hr. unfold reachable in Hr.
  assert (Hgen : forall s0, rtc (gstep sign p gas tmpl) s0 s -> stuck_inv s0 -> stuck_inv s).
  { clear Hr. intros s0 H. induction H as [x|x y z Hxy _ IH]; auto.
    intros Hx. apply IH. eapply stuck_step; eauto. }
  apply (Hgen _ Hr). unfold stuck_inv, init. cbn. repeat split.
  apply Forall_forall. intros w Hin.
  apply list_elem_of_In, in_map_iff in Hin as [i [<- _]].
  unfold worker_init. destruct (worker_start i); exact I.
Qed.

(** A prefix that is not a prefix of ["0x"] followed by hex digits matches
    no hash. *)
Lemma prefix_shape (p : string) (h : list byte) :
  hash_matches p h = true ->
  (exists s, all_hex s = true /\ String.prefix p (String.append "0x" s) = true) /\
  (String.length p = 1%nat -> p = "0"%string) /\
  ((2 <= String.length p)%nat -> String.prefix "0x" p = true).
Proof.
  intros Hm. split.
  - exists (hex_encode h). split; [apply hex_encode_all_hex | exact Hm].
  - unfold hash_matches, render_hash in Hm. apply prefix_iff in Hm as [rest Hrest].
    destruct p as [|a p]; cbn in Hrest |- *; [split; intros; lia|].
    injection Hrest as <- Hrest.
    destruct p as [|b p]; cbn in Hrest |- *; [split; [reflexivity | intros; lia]|].
    injection Hrest as <- _. split; [intros; lia|]. intros _. destruct p; vm_compute; reflexivity.
Qed.

Ltac case_matches H :=
  repeat match type of H with
         | context [match ?x with _ => _ end] => destruct x
         end.

(** A [WSend] is only produced by the [swap] that read [false]. *)
Lemma wstep_send_from_swap sign p gas tmpl f w f' o m :
  is_send w = false -> wstep sign p gas tmpl f w = (f', WSend o, m) ->
  f = false /\ exists tx b, w = WSwap tx (out_rlp o) (out_hash o) b.
Proof.
  intros Hw Hs.
  destruct w as [b|[|tx rest] b|tx r h b|o'| |]; cbn in Hw; try discriminate;
    cbv beta iota delta [wstep swap_true] in Hs; destruct f; cbv beta iota delta [negb] in Hs;
    case_matches Hs; try discriminate.
  injection Hs as _ <- _. split; [reflexivity|]. eexists _, _. reflexivity.
Qed.

Lemma main_report_nothing_sent (s : gstate) : g_sent s = [] -> main_report s = None.
Proof.
  intros Hs. unfold main_report. rewrite Hs.
  destruct (main_join_from 0 (g_workers s)); reflexivity.
Qed.

Lemma hash_matches_ab (h : list byte) : hash_matches "ab" h = false.
Proof.
  destruct (hash_matches "ab" h) eqn:Hm; [|reflexivity].
  apply prefix_shape in Hm as (_ & _ & H2). specialize (H2 ltac:(cbn; lia)).
  vm_compute in H2. discriminate.
Qed.

(* ================================================================== *)
(** * Cancellation and the result channel *)

(** C1: the flag starts clear and once set stays set, so it goes from
    false to true at most once in a run; in every reachable state of every
    interleaving at most one outcome has been sent; only a task whose
    [swap] read [false] reaches [send], and a task whose [swap] reads
    [true] drops its match and goes back to its loop without sending. *)
Theorem at_most_one_outcome sign p gas tmpl n s :
  reachable sign p gas tmpl n s ->
  g_found (init n) = false /\
  (length (g_sent s) <= 1)%nat /\
  (forall s', rtc (gstep sign p gas tmpl) s s' -> g_found s = true -> g_found s' = true) /\
  (forall f w f' o m, is_send w = false -> wstep sign p gas tmpl f w = (f', WSend o, m) ->
     f = false /\ exists tx b, w = WSwap tx (out_rlp o) (out_hash o) b) /\
  (forall tx r h b, wstep sign p gas tmpl true (WSwap tx r h b) = (true, WLoop b, None)).
Proof.
  intros Hr.
  destruct (ginv_reachable _ _ _ _ _ _ Hr) as (Hcnt & _ & _ & _).
  split; [reflexivity|]. split; [lia|]. split.
  - intros s' Hs'. exact (rtc_found_mono sign p gas tmpl s s' Hs').
  - split.
    + intros f w f' o m. apply wstep_send_from_swap.
    + intros tx r h b. reflexivity.
Qed.

Lemma at_most_one_outcome_witness :
  (reachable stub_sign "" 21000 demo_tmpl 2 demo_race /\
   g_found demo_race = true /\
   g_sent demo_race = [mkOutcome [x02] (x50 :: repeat x00 31) 404250000000] /\
   g_workers demo_race = [WDone; WDone]) /\
  (g_found (init 2) = false /\
   (length (g_sent demo_race) <= 1)%nat /\
   (forall s', rtc (gstep stub_sign "" 21000 demo_tmpl) demo_race s' ->
      g_found demo_race = true -> g_found s' = true) /\
   (forall f w f' o m, is_send w = false ->
      wstep stub_sign "" 21000 demo_tmpl f w = (f', WSend o, m) ->
      f = false /\ exists tx b, w = WSwap tx (out_rlp o) (out_hash o) b) /\
   (forall tx r h b, wstep stub_sign "" 21000 demo_tmpl true (WSwap tx r h b) = (true, WLoop b, None))).
Proof.
  assert (Hr : reachable stub_sign "" 21000 demo_tmpl 2 demo_race) by apply run_reachable.
  assert (Hf : g_found demo_race = true) by (vm_compute; reflexivity).
  assert (Hs : g_sent demo_race = [mkOutcome [x02] (x50 :: repeat x00 31) 404250000000])
    by (vm_compute; reflexivity).
  assert (Hw : g_workers demo_race = [WDone; WDone]) by (vm_compute; reflexivity).
  split; [exact (conj Hr (conj Hf (conj Hs Hw)))|].
  exact (at_most_one_outcome stub_sign "" 21000 demo_tmpl 2 demo_race Hr).
Defined.

(** C8: every outcome sent on the channel carries
    [total_fee_wei = gas_limit * max_fee_per_gas] of the candidate whose
    signature it carries, the gas limit being the template's. *)
Theorem published_total_fee sign p gas tmpl n s o :
  tx_gas tmpl = Some gas ->
  reachable sign p gas tmpl n s -> o ∈ g_sent s ->
  exists tx mf,
    sign tx = inr (out_rlp o, out_hash o) /\ max_fee_per_gas tx = Some mf /\
    tx_gas tx = Some gas /\ out_total_fee o = gas * mf.
Proof.
  intros Hgas Hr Hin.
  destruct (ginv_reachable _ _ _ _ _ _ Hr) as (_ & _ & _ & Hsent).
  destruct (proj1 (Forall_forall _ _) Hsent o Hin) as (tx & mf & Hs & _ & Hmf & Htg & Hfee).
  exists tx, mf. repeat split; auto. rewrite Htg. exact Hgas.
Qed.

Lemma published_total_fee_witness :
  (tx_gas demo_tmpl = Some 21000 /\
   reachable stub_sign "" 21000 demo_tmpl 1 (run stub_sign "" 21000 demo_tmpl [0;0;0;0;0]%nat (init 1)) /\
   mkOutcome [x02] (x50 :: repeat x00 31) 404250000000
     ∈ g_sent (run stub_sign "" 21000 demo_tmpl [0;0;0;0;0]%nat (init 1))) /\
  exists tx mf,
    stub_sign tx = inr ([x02], x50 :: repeat x00 31) /\ max_fee_per_gas tx = Some mf /\
    tx_gas tx = Some 21000 /\ 404250000000 = 21000 * mf.
Proof.
  assert (H1 : tx_gas demo_tmpl = Some 21000) by reflexivity.
  assert (H2 : reachable stub_sign "" 21000 demo_tmpl 1
                 (run stub_sign "" 21000 demo_tmpl [0;0;0;0;0]%nat (init 1)))
    by apply run_reachable.
  assert (H3 : mkOutcome [x02] (x50 :: repeat x00 31) 404250000000
                 ∈ g_sent (run stub_sign "" 21000 demo_tmpl [0;0;0;0;0]%nat (init 1))).
  { vm_compute. left. }
  split; [exact (conj H1 (conj H2 H3))|].
  exact (published_total_fee stub_sign "" 21000 demo_tmpl 1 _ _ H1 H2 H3).
Defined.

(** C10: an accepted target prefix is a prefix of ["0x"] followed by hex
    digits: of length 1 it is ["0"], of length 2 or more it starts with
    ["0x"]. Any other non-empty prefix (["ab"], ["00"], ...) matches no hash,
    so in every interleaving the flag stays clear and nothing is sent. *)
Theorem accepted_prefix_starts_with_0x (p : string) :
  (forall h : list byte, hash_matches p h = true ->
     (exists s, all_hex s = true /\ String.prefix p (String.append "0x" s) = true) /\
     (String.length p = 1%nat -> p = "0"%string) /\
     ((2 <= String.length p)%nat -> String.prefix "0x" p = true)) /\
  ((String.length p = 1%nat /\ p <> "0"%string) \/
   ((2 <= String.length p)%nat /\ String.prefix "0x" p = false) ->
   (forall h, hash_matches p h = false) /\
   forall sign gas tmpl n s, reachable sign p gas tmpl n s ->
     g_found s = false /\ g_sent s = []).
Proof.
  split; [apply prefix_shape|].
  intros Hbad.
  assert (Hno : forall h, hash_matches p h = false).
  { intros h. destruct (hash_matches p h) eqn:Hm; [|reflexivity].
    apply prefix_shape in Hm as (_ & H1 & H2).
    destruct Hbad as [[Hl Hne] | [Hl Hpf]].
    - exfalso. exact (Hne (H1 Hl)).
    - rewrite (H2 Hl) in Hpf. discriminate. }
  split; [exact Hno|].
  intros sign gas tmpl n s Hr.
  destruct (stuck_reachable sign p gas tmpl n s (fun tx r h _ => Hno h) Hr) as (Hf & Hs & _).
  split; assumption.
Qed.

(** C5, evaluated: [main] keeps its own [tx_result], so [recv()] never
    reports a closed channel and ["No solution found"] is never printed;
    once every task has ended without a send (here two panicked tasks)
    [main] is blocked for good, and with the prefix ["ab"] no
    interleaving ever lets [main] report anything. *)
Theorem main_never_reports_not_found :
  (forall s, main_report s <> Some NoSolution) /\
  main_report (mkG false [WPanic; WPanic] []) = None /\
  (forall sign gas tmpl n s, reachable sign "ab" gas tmpl n s -> main_report s = None).
Proof.
  split; [|split].
  - intros s. unfold main_report.
    destruct (main_join_from 0 (g_workers s)); [discriminate|].
    unfold recv, senders_alive. destruct (g_sent s); cbn; discriminate.
  - reflexivity.
  - intros sign gas tmpl n s Hr.
    apply main_report_nothing_sent.
    destruct (stuck_reachable sign "ab" gas tmpl n s (fun tx r h _ => hash_matches_ab h) Hr)
      as (_ & Hs & _).
    exact Hs.
Qed.

(** C6 (as amended): a candidate whose signing fails, whatever the error,
    is skipped and the batch goes on with the next candidate; no signing
    error ends the task ([process_batch] never returns [Err]): with a
    signer that fails on every candidate, the tasks keep searching, nothing
    is claimed or sent and no task returns. *)
Theorem signing_error_skips_candidate sign p gas tmpl tx rest b (err : string) :
  sign tx = inl err ->
  process_batch sign p gas (tx :: rest) false = process_batch sign p gas rest false /\
  wstep sign p gas tmpl false (WBatch (tx :: rest) b) = (false, WBatch rest b, None) /\
  ((forall tx', exists e, sign tx' = inl e) ->
   forall n s, reachable sign p gas tmpl n s -> stuck_inv s).
Proof.
  intros Hs. split; [|split].
  - cbn [process_batch]. rewrite Hs. reflexivity.
  - cbv beta iota delta [wstep]. rewrite Hs. reflexivity.
  - intros Hall n s Hr. apply (stuck_reachable sign p gas tmpl n s); [|exact Hr].
    intros tx' r h Hsg. destruct (Hall tx') as [e He]. congruence.
Qed.

Lemma signing_error_skips_candidate_witness :
  failing_sign (set_fees demo_tmpl 19250000 priority_fee) = inl "invalid private key"%string /\
  (process_batch failing_sign "00" 21000 (set_fees demo_tmpl 19250000 priority_fee :: []) false =
     process_batch failing_sign "00" 21000 [] false /\
   wstep failing_sign "00" 21000 demo_tmpl false
     (WBatch (set_fees demo_tmpl 19250000 priority_fee :: []) base_fee_start) =
     (false, WBatch [] base_fee_start, None) /\
   ((forall tx', exists e, failing_sign tx' = inl e) ->
    forall n s, reachable failing_sign "00" 21000 demo_tmpl n s -> stuck_inv s)).
Proof.
  assert (H : failing_sign (set_fees demo_tmpl 19250000 priority_fee) = inl "invalid private key"%string)
    by reflexivity.
  split; [exact H|].
  exact (signing_error_skips_candidate failing_sign "00" 21000 demo_tmpl _ [] base_fee_start _ H).
Defined.

(** C6, counterexample: with a key that fails every signature (a systemic
    failure), worker 0 does not end or report: after one [while] iteration
    (1002 steps) it is back at its loop with the cursor 1000 further on. *)
Lemma systemic_signing_failure_keeps_searching :
  run failing_sign "00" 21000 demo_tmpl (repeat 0%nat 1002) (init 1) =
  mkG false [WLoop (base_fee_start + 1000)] [].
Proof. vm_compute. reflexivity. Qed.

(* ================================================================== *)
(** * Contract-address prediction *)

Lemma keccak_f_length (A : list Z) : length (Keccak.keccak_f A) = 25%nat.
Proof.
  unfold Keccak.keccak_f.
  assert (Hgen : forall rcs B, length B = 25%nat ->
            length (fold_left (fun st rc => Keccak.iota rc (Keccak.chi (Keccak.rho_pi (Keccak.theta st)))) rcs B) = 25%nat).
  { induction rcs as [|rc rcs IH]; intros B HB; [exact HB|].
    cbn [fold_left]. apply IH. reflexivity. }
  assert (Hrc : Keccak.round_constants =
                hd 0 Keccak.round_constants :: tl Keccak.round_constants) by reflexivity.
  rewrite Hrc. cbn [fold_left]. apply Hgen. reflexivity.
Qed.

Lemma absorb_length (fuel : nat) (A m : list Z) :
  length A = 25%nat -> length (Keccak.absorb fuel A m) = 25%nat.
Proof.
  revert A m. induction fuel as [|fuel IH]; intros A m HA; cbn [Keccak.absorb]; [exact HA|].
  destruct m; [exact HA|]. apply IH, keccak_f_length.
Qed.

Lemma keccak256_length (msg : list byte) : length (Keccak.keccak256 msg) = 32%nat.
Proof.
  unfold Keccak.keccak256.
  set (m := Keccak.pad (map Keccak.Z_of_byte msg)).
  pose proof (absorb_length (S (length m)) (repeat 0 25) m eq_refl) as HA.
  destruct (Keccak.absorb (S (length m)) (repeat 0 25) m)
    as [|a0 [|a1 [|a2 [|a3 rest]]]]; try discriminate.
  reflexivity.
Qed.

Lemma Z_of_byte_of_Z (z : Z) : 0 <= z < 256 -> Keccak.Z_of_byte (Keccak.byte_of_Z z) = z.
Proof.
  intros Hz. unfold Keccak.Z_of_byte, Keccak.byte_of_Z.
  assert (Hn : (Z.to_nat z < 256)%nat) by lia.
  destruct (Byte.of_nat (Z.to_nat z)) as [b|] eqn:E.
  - apply Byte.to_of_nat in E. rewrite E. lia.
  - exfalso. apply Byte.of_nat_None_iff in E. lia.
Qed.

Lemma be_min_aux_value (f : nat) (n : Z) (acc : list byte) :
  0 <= n < 256 ^ Z.of_nat f ->
  fold_left (fun acc b => acc * 256 + Keccak.Z_of_byte b) (Rlp.be_min_aux f n acc) 0 =
  fold_left (fun acc b => acc * 256 + Keccak.Z_of_byte b) acc n.
Proof.
  revert n acc. induction f as [|f IH]; intros n acc Hn; cbn [Rlp.be_min_aux].
  - replace n with 0 by (cbn in Hn; lia). reflexivity.
  - destruct (Z.eqb_spec n 0) as [->|Hn0]; [reflexivity|].
    rewrite Nat2Z.inj_succ, Z.pow_succ_r in Hn by lia.
    rewrite IH by (split; [apply Z.div_pos; lia | apply Z.div_lt_upper_bound; lia]).
    cbn [fold_left]. rewrite Z_of_byte_of_Z by (apply Z.mod_pos_bound; lia).
    f_equal. pose proof (Z.div_mod n 256). lia.
Qed.

Lemma be_min_aux_lead (f : nat) (n : Z) (acc : list byte) :
  0 < n < 256 ^ Z.of_nat f ->
  exists b rest, Rlp.be_min_aux f n acc = b :: rest /\ Keccak.Z_of_byte b <> 0.
Proof.
  revert n acc. induction f as [|f IH]; intros n acc Hn.
  - cbn in Hn. lia.
  - cbn [Rlp.be_min_aux]. destruct (Z.eqb_spec n 0) as [|_]; [lia|].
    rewrite Nat2Z.inj_succ, Z.pow_succ_r in Hn by lia.
    destruct (Z.eq_dec (n / 256) 0) as [Hq|Hq].
    + destruct f; cbn [Rlp.be_min_aux]; [|rewrite Hq; cbn [Z.eqb]];
        (exists (Keccak.byte_of_Z (n mod 256)), acc; split; [reflexivity|]);
        rewrite Z_of_byte_of_Z by (apply Z.mod_pos_bound; lia);
        pose proof (Z.div_mod n 256); lia.
    + apply IH. split.
      * pose proof (Z.div_pos n 256). lia.
      * apply Z.div_lt_upper_bound; lia.
Qed.

Lemma encode_value_yellow_paper (x : list byte) :
  Rlp.encode_value x = Rlp.yellow_paper (Rlp.Bytes x).
Proof. destruct x as [|b [|b' x]]; reflexivity. Qed.

Lemma list_header_yellow_paper (items : list Rlp.item) :
  Rlp.yellow_paper (Rlp.List items) =
  let s := concat (map Rlp.yellow_paper items) in Rlp.list_header (length s) ++ s.
Proof.
  cbn [Rlp.yellow_paper]. unfold Rlp.list_header, Nat.ltb. cbv zeta.
  change (S ?n <=? 56)%nat with (n <=? 55)%nat.
  destruct (_ <=? 55)%nat; reflexivity.
Qed.

(** C9: [get_contract_address] never fails: it returns the last 20 of the
    32 bytes of the Keccak-256 digest of the Yellow-Paper RLP encoding of
    the two-element list [sender; nonce], where the nonce is written as its
    minimal big-endian bytes (value [nonce], no leading zero byte); the
    function only reads its two arguments. *)
Theorem contract_address_spec (sender : list byte) (nonce : Z) :
  0 <= nonce <= U256.MAX ->
  let enc := Rlp.yellow_paper (Rlp.List [Rlp.Bytes sender; Rlp.Bytes (Rlp.be_min nonce)]) in
  get_contract_address sender nonce = Some (skipn 12 (Keccak.keccak256 enc)) /\
  length (skipn 12 (Keccak.keccak256 enc)) = 20%nat /\
  be_value (Rlp.be_min nonce) = nonce /\
  (0 < nonce -> exists b rest, Rlp.be_min nonce = b :: rest /\ Keccak.Z_of_byte b <> 0).
Proof.
  intros Hn enc.
  assert (Hb : 0 <= nonce < 256 ^ Z.of_nat 32) by (unfold U256.MAX in Hn; cbn; lia).
  assert (Hlen : length (skipn 12 (Keccak.keccak256 enc)) = 20%nat)
    by (rewrite length_skipn, keccak256_length; reflexivity).
  split; [|split; [exact Hlen|split]].
  - unfold get_contract_address, Rlp.out, Rlp.append, Rlp.new_list. cbn [Rlp.rs_items Rlp.rs_len].
    cbn [app length Nat.eqb].
    unfold Rlp.encode_address, Rlp.encode_u256.
    rewrite !encode_value_yellow_paper.
    unfold address_from_slice. subst enc. rewrite list_header_yellow_paper.
    cbn [map concat]. rewrite !app_nil_r. cbv zeta.
    rewrite length_skipn, keccak256_length. reflexivity.
  - unfold be_value, Rlp.be_min. rewrite be_min_aux_value by exact Hb. reflexivity.
  - intros Hpos. apply be_min_aux_lead. lia.
Qed.

Lemma contract_address_spec_witness :
  get_contract_address ref_sender 0 = Some ref_address_0 /\
  get_contract_address ref_sender 1 = Some ref_address_1 /\
  (0 <= 1 <= U256.MAX /\
   let enc := Rlp.yellow_paper (Rlp.List [Rlp.Bytes ref_sender; Rlp.Bytes (Rlp.be_min 1)]) in
   get_contract_address ref_sender 1 = Some (skipn 12 (Keccak.keccak256 enc)) /\
   length (skipn 12 (Keccak.keccak256 enc)) = 20%nat /\
   be_value (Rlp.be_min 1) = 1 /\
   (0 < 1 -> exists b rest, Rlp.be_min 1 = b :: rest /\ Keccak.Z_of_byte b <> 0)).
Proof.
  split; [vm_compute; reflexivity|].
  split; [vm_compute; reflexivity|].
  assert (H : 0 <= 1 <= U256.MAX) by (unfold U256.MAX; lia).
  split; [exact H|].
  exact (contract_address_spec ref_sender 1 H).
Defined.

(* ================================================================== *)
(** * Further properties of the search *)

Lemma wrank_terminated (w : wstate) : wrank w = 0%nat <-> terminated w = true.
Proof. destruct w; cbn; split; congruence. Qed.

Lemma wstep_set_rank sign p gas tmpl w f' w' m :
  terminated w = false -> wstep sign p gas tmpl true w = (f', w', m) ->
  (wrank w' < wrank w)%nat.
Proof.
  intros Ht Hs.
  destruct w as [b|[|tx rest] b|tx r h b|o| |]; cbn in Ht; try discriminate;
    cbv beta iota delta [wstep swap_true negb] in Hs; injection Hs as _ <- _; cbn; lia.
Qed.

Lemma step_task_flag_set sign p gas tmpl j s i w :
  g_found s = true -> g_workers s !! i = Some w ->
  g_found (step_task sign p gas tmpl j s) = true /\
  exists w', g_workers (step_task sign p gas tmpl j s) !! i = Some w' /\
    (if Nat.eqb i j then wrank w' = 0%nat \/ (wrank w' < wrank w)%nat
     else (wrank w' <= wrank w)%nat).
Proof.
  intros Hf Hi. unfold step_task.
  destruct (g_workers s !! j) as [wj|] eqn:Hj.
  - destruct (Nat.eqb_spec i j) as [->|Hne].
    + rewrite Hi in Hj. injection Hj as <-.
      destruct (terminated w) eqn:Ht.
      * split; [exact Hf|]. exists w. split; [exact Hi|].
        left. apply wrank_terminated. exact Ht.
      * destruct (wstep sign p gas tmpl (g_found s) w) as [[f' w'] m] eqn:Hs.
        cbn [g_found g_workers]. split; [eapply wstep_found_mono; eauto|].
        exists w'. split.
        -- apply list_lookup_insert_eq. eapply lookup_lt_Some; eauto.
        -- right. rewrite Hf in Hs. eapply wstep_set_rank; eauto.
    + destruct (terminated wj) eqn:Ht.
      * split; [exact Hf|]. exists w. split; [exact Hi | lia].
      * destruct (wstep sign p gas tmpl (g_found s) wj) as [[f' w'] m] eqn:Hs.
        cbn [g_found g_workers]. split; [eapply wstep_found_mono; eauto|].
        exists w. split; [|lia]. rewrite list_lookup_insert_ne by congruence. exact Hi.
  - split; [exact Hf|]. exists w. split; [exact Hi|].
    destruct (Nat.eqb_spec i j) as [->|]; [congruence | lia].
Qed.

(** Once the flag is set, every task has stopped after at most two more
    steps of its own, whatever the other tasks do in between: the [while]
    check exits, a batch in progress returns at its next [found.load], a
    task that lost the [swap] breaks out to the [while] check, and the
    claimer sends and returns. *)
Theorem flag_set_stops_every_task sign p gas tmpl (sched : list nat) s i w :
  g_found s = true -> g_workers s !! i = Some w ->
  (2 <= count_occ Nat.eq_dec sched i)%nat ->
  exists w', g_workers (run sign p gas tmpl sched s) !! i = Some w' /\ terminated w' = true.
Proof.
  intros Hf Hi Hc.
  assert (Hgen : forall sched s w, g_found s = true -> g_workers s !! i = Some w ->
            (wrank w <= count_occ Nat.eq_dec sched i)%nat ->
            exists w', g_workers (run sign p gas tmpl sched s) !! i = Some w' /\ wrank w' = 0%nat).
  { clear. induction sched as [|j sched IH]; intros s w Hf Hi Hc.
    - exists w. split; [exact Hi|]. cbn in Hc. lia.
    - cbn [run]. destruct (step_task_flag_set sign p gas tmpl j s i w Hf Hi) as (Hf' & w' & Hi' & Hr).
      apply (IH _ w' Hf' Hi').
      cbn [count_occ] in Hc. destruct (Nat.eq_dec j i) as [->|Hne].
      + rewrite Nat.eqb_refl in Hr. lia.
      + rewrite (proj2 (Nat.eqb_neq i j)) in Hr by congruence. lia. }
  destruct (Hgen sched s w Hf Hi) as (w' & Hw' & Hr).
  - destruct w; cbn; lia.
  - exists w'. split; [exact Hw'|]. apply wrank_terminated. exact Hr.
Qed.

Lemma flag_set_stops_every_task_witness :
  (g_found demo_claimed = true /\
   g_workers demo_claimed !! 0%nat =
     Some (WSend (mkOutcome [x02] (x50 :: repeat x00 31) 404250000000)) /\
   (2 <= count_occ Nat.eq_dec [0; 0]%nat 0%nat)%nat) /\
  exists w', g_workers (run stub_sign "" 21000 demo_tmpl [0; 0]%nat demo_claimed) !! 0%nat = Some w' /\
    terminated w' = true.
Proof.
  assert (H1 : g_found demo_claimed = true) by (vm_compute; reflexivity).
  assert (H2 : g_workers demo_claimed !! 0%nat =
                 Some (WSend (mkOutcome [x02] (x50 :: repeat x00 31) 404250000000)))
    by (vm_compute; reflexivity).
  assert (H3 : (2 <= count_occ Nat.eq_dec [0; 0]%nat 0%nat)%nat) by (cbn; lia).
  split; [exact (conj H1 (conj H2 H3))|].
  exact (flag_set_stops_every_task stub_sign "" 21000 demo_tmpl [0; 0]%nat demo_claimed 0%nat _ H1 H2 H3).
Defined.

Lemma lookup_insert_cases {A} (l : list A) (i k : nat) (x y : A) :
  l !! i = Some x -> <[i := y]> l !! k = if Nat.eqb i k then Some y else l !! k.
Proof.
  intros Hi. destruct (Nat.eqb_spec i k) as [->|Hne].
  - apply list_lookup_insert_eq. eapply lookup_lt_Some; eauto.
  - apply list_lookup_insert_ne. exact Hne.
Qed.

Lemma clear_inv_step sign p gas tmpl s s' :
  ginv sign p gas tmpl s -> clear_inv s -> gstep sign p gas tmpl s s' -> clear_inv s'.
Proof.
  intros (_ & Hclr & _) Hc Hst. destruct Hst as [s i w f' w' m Hi Ht Hs].
  unfold clear_inv. cbn [g_found g_workers]. intros Hf'.
  destruct (g_found s) eqn:Hf.
  { exfalso. pose proof (wstep_found_mono _ _ _ _ _ _ _ _ _ Hs eq_refl). congruence. }
  destruct (Hclr eq_refl) as [_ Hns].
  pose proof (Forall_lookup_1 _ _ _ _ Hns Hi) as Hw.
  apply Forall_insert; [exact (Hc Hf)|].
  intros ->. destruct w as [b|[|tx rest] b|tx r h b|o| |]; cbn in Hw, Ht; try discriminate;
    cbv beta iota delta [wstep swap_true negb] in Hs; case_matches Hs; congruence.
Qed.

Lemma clear_inv_reachable sign p gas tmpl n s :
  reachable sign p gas tmpl n s -> clear_inv s.
Proof.
  unfold reachable. intros Hr.
  assert (Hgen : forall s0, rtc (gstep sign p gas tmpl) s0 s -> ginv sign p gas tmpl s0 ->
            clear_inv s0 -> clear_inv s).
  { clear Hr. intros s0 H. induction H as [x|x y z Hxy _ IH]; auto.
    intros Hg Hx. apply IH; [eapply ginv_step | eapply clear_inv_step]; eauto. }
  apply (Hgen _ Hr); [apply ginv_init|].
  intros _. unfold init. cbn [g_workers]. apply Forall_forall. intros w Hin.
  apply list_elem_of_In, in_map_iff in Hin as [i [<- _]].
  unfold worker_init. destruct (worker_start i); discriminate.
Qed.

Lemma main_join_from_running (k : nat) (ws : list wstate) :
  Forall (fun w => w <> WDone) ws ->
  Forall (fun w => w = WPanic) ws \/
  exists j w, main_join_from k ws = MAwait (k + j) /\ ws !! j = Some w /\
    terminated w = false /\ forall j', (j' < j)%nat -> ws !! j' = Some WPanic.
Proof.
  revert k. induction ws as [|w ws IH]; intros k Hws; [left; constructor|].
  apply Forall_cons in Hws as [Hw Hws].
  destruct (terminated w) eqn:Htw.
  2:{ right. exists 0%nat, w. split; [destruct w; try discriminate; cbn; f_equal; lia|].
      split; [reflexivity|]. split; [exact Htw|]. intros; lia. }
  destruct w; try discriminate; [congruence|].
  destruct (IH (S k) Hws) as [Hall|(j & w & Hj & Hl & Ht & Hb)].
  - left. constructor; [reflexivity | exact Hall].
  - right. exists (S j), w. cbn [main_join_from]. rewrite Hj.
    split; [f_equal; lia|]. split; [exact Hl|]. split; [exact Ht|].
    intros [|j'] Hj'; [reflexivity|]. apply Hb. lia.
Qed.

(** While the flag is clear no task has returned [Ok(())] (a task only
    leaves its loop once the flag is set); so [main]'s join loop is still
    awaiting the first task that has neither panicked nor returned, unless
    every task has panicked. *)
Theorem no_task_returns_before_flag sign p gas tmpl n s :
  reachable sign p gas tmpl n s -> g_found s = false ->
  Forall (fun w => w <> WDone) (g_workers s) /\
  (Forall (fun w => w = WPanic) (g_workers s) \/
   exists k w, main_join_from 0 (g_workers s) = MAwait k /\ g_workers s !! k = Some w /\
     terminated w = false /\ forall j, (j < k)%nat -> g_workers s !! j = Some WPanic).
Proof.
  intros Hr Hf.
  pose proof (clear_inv_reachable _ _ _ _ _ _ Hr Hf) as Hnd.
  split; [exact Hnd|].
  destruct (main_join_from_running 0 _ Hnd) as [Hall|(j & w & Hj & Hl & Ht & Hb)];
    [left; exact Hall|].
  right. exists j, w. repeat split; auto.
Qed.

Lemma no_task_returns_before_flag_witness :
  (reachable stub_sign "0xff" 21000 demo_tmpl 2 demo_search /\ g_found demo_search = false) /\
  Forall (fun w => w <> WDone) (g_workers demo_search) /\
  (Forall (fun w => w = WPanic) (g_workers demo_search) \/
   exists k w, main_join_from 0 (g_workers demo_search) = MAwait k /\
     g_workers demo_search !! k = Some w /\
     terminated w = false /\ forall j, (j < k)%nat -> g_workers demo_search !! j = Some WPanic).
Proof.
  assert (H1 : reachable stub_sign "0xff" 21000 demo_tmpl 2 demo_search) by apply run_reachable.
  assert (H2 : g_found demo_search = false) by (vm_compute; reflexivity).
  split; [exact (conj H1 H2)|].
  exact (no_task_returns_before_flag stub_sign "0xff" 21000 demo_tmpl 2 demo_search H1 H2).
Defined.

Lemma wstep_sets_flag sign p gas tmpl w w' m :
  terminated w = false -> wstep sign p gas tmpl false w = (true, w', m) ->
  is_send w' = true \/ w' = WPanic.
Proof.
  intros Ht Hs.
  destruct w as [b|[|tx rest] b|tx r h b|o| |]; cbn in Ht; try discriminate;
    cbv beta iota delta [wstep swap_true negb] in Hs; case_matches Hs;
    try discriminate; inversion Hs; subst; cbn; auto.
Qed.

Lemma cause_inv_step sign p gas tmpl s s' :
  cause_inv s -> gstep sign p gas tmpl s s' -> cause_inv s'.
Proof.
  intros Hc Hst. destruct Hst as [s i w f' w' m Hi Ht Hs].
  unfold cause_inv. cbn [g_found g_workers g_sent]. intros Hf'.
  destruct (g_found s) eqn:Hf.
  - destruct (Hc Hf) as [Hsent|(k & wk & Hk & Hwk)].
    + left. intros Hnil. apply app_eq_nil in Hnil as [? _]. congruence.
    + destruct (Nat.eqb_spec i k) as [<-|Hne].
      * rewrite Hi in Hk. injection Hk as <-.
        destruct Hwk as [Hsd| ->]; [|discriminate].
        destruct w as [| | |o| |]; try discriminate.
        cbn in Hs. injection Hs as _ _ <-. left. cbn.
        intros Hnil. apply app_eq_nil in Hnil as [_ ?]. discriminate.
      * right. exists k, wk. split; [|exact Hwk].
        rewrite list_lookup_insert_ne by exact Hne. exact Hk.
  - subst f'. right. exists i, w'. split.
    + apply list_lookup_insert_eq. eapply lookup_lt_Some; eauto.
    + eapply wstep_sets_flag; eauto.
Qed.

(** Whenever the flag is set, an outcome has been sent on the channel, or
    the task that claimed the flag is about to send it, or some task has
    panicked: the flag is never set without an outcome unless a task
    panicked (the claimer's [gas_limit * max_fee] overflowing). *)
Theorem flag_set_has_cause sign p gas tmpl n s :
  reachable sign p gas tmpl n s -> g_found s = true ->
  g_sent s <> [] \/
  exists k w, g_workers s !! k = Some w /\ (is_send w = true \/ w = WPanic).
Proof.
  unfold reachable. intros Hr.
  assert (Hgen : forall s0, rtc (gstep sign p gas tmpl) s0 s -> cause_inv s0 -> cause_inv s).
  { clear Hr. intros s0 H. induction H as [x|x y z Hxy _ IH]; auto.
    intros Hx. apply IH. eapply cause_inv_step; eauto. }
  apply (Hgen _ Hr). unfold cause_inv, init. cbn. discriminate.
Qed.

Lemma flag_set_has_cause_witness :
  (reachable stub_sign "" 21000 demo_tmpl 1 demo_claimed /\ g_found demo_claimed = true) /\
  (g_sent demo_claimed <> [] \/
   exists k w, g_workers demo_claimed !! k = Some w /\ (is_send w = true \/ w = WPanic)).
Proof.
  assert (H1 : reachable stub_sign "" 21000 demo_tmpl 1 demo_claimed) by apply run_reachable.
  assert (H2 : g_found demo_claimed = true) by (vm_compute; reflexivity).
  split; [exact (conj H1 H2)|].
  exact (flag_set_has_cause stub_sign "" 21000 demo_tmpl 1 demo_claimed H1 H2).
Defined.

Lemma gen_batch_some tmpl n c batch c' :
  0 <= c -> gen_batch tmpl n c = Some (batch, c') ->
  batch = expected_batch tmpl n c /\ c' = c + Z.of_nat n.
Proof.
  intros Hc Hg. destruct n as [|n].
  - cbn in Hg. injection Hg as <- <-. split; [reflexivity | lia].
  - destruct (Z.leb_spec (c + Z.of_nat (S n) + priority_fee) (U256.MAX + 1)) as [Hle|Hgt].
    + rewrite gen_batch_spec in Hg by lia. injection Hg as <- <-. auto.
    + rewrite gen_batch_overflow in Hg by lia. discriminate.
Qed.

Lemma run_batches_some tmpl b c txs c' :
  0 <= c -> run_batches tmpl b c = Some (txs, c') ->
  txs = expected_batch tmpl (b * BATCH_SIZE) c /\ c' = c + Z.of_nat (b * BATCH_SIZE).
Proof.
  revert c txs c'. induction b as [|b IH]; intros c txs c' Hc Hr; cbn [run_batches] in Hr.
  - injection Hr as <- <-. split; [reflexivity | cbn; lia].
  - destruct (gen_batch tmpl BATCH_SIZE c) as [[batch c1]|] eqn:Hg; [|discriminate].
    destruct (gen_batch_some _ _ _ _ _ Hc Hg) as [-> ->].
    destruct (run_batches tmpl b (c + Z.of_nat BATCH_SIZE)) as [[rest c2]|] eqn:Hr2; [|discriminate].
    injection Hr as <- <-.
    destruct (IH (c + Z.of_nat BATCH_SIZE) _ _ ltac:(lia) Hr2) as [-> ->].
    replace (S b * BATCH_SIZE)%nat with (BATCH_SIZE + b * BATCH_SIZE)%nat by lia.
    rewrite expected_batch_app. split; [reflexivity | lia].
Qed.

Lemma expected_batch_NoDup tmpl n c : NoDup (expected_batch tmpl n c).
Proof.
  revert c. induction n as [|n IH]; intros c; [constructor|].
  rewrite expected_batch_S. constructor; [|apply IH].
  intros Hin.
  apply elem_of_expected_batch in Hin as (k & _ & Hk).
  apply (f_equal max_fee_per_gas) in Hk. cbn in Hk. injection Hk. lia.
Qed.

(** The candidates a task builds over [b] rounds of its [while] loop (no
    match found, no overflow) are pairwise distinct, so no transaction is
    signed twice by a task; each is the template with only the two fee
    fields set, the priority fee being the fixed [priority_fee]; the
    cursor has advanced by [b * BATCH_SIZE]. *)
Theorem task_candidates_distinct tmpl b c txs c' :
  0 <= c -> run_batches tmpl b c = Some (txs, c') ->
  NoDup txs /\
  Forall (fun tx => tx_to tx = tx_to tmpl /\ tx_data tx = tx_data tmpl /\
                    tx_nonce tx = tx_nonce tmpl /\ tx_gas tx = tx_gas tmpl /\
                    tx_chain_id tx = tx_chain_id tmpl /\
                    max_priority_fee_per_gas tx = Some priority_fee) txs /\
  c' = c + Z.of_nat (b * BATCH_SIZE).
Proof.
  intros Hc Hr. destruct (run_batches_some _ _ _ _ _ Hc Hr) as [-> ->].
  split; [apply expected_batch_NoDup|]. split; [|reflexivity].
  apply Forall_forall. intros tx Hin.
  apply elem_of_expected_batch in Hin as (k & _ & ->). cbn. auto 6.
Qed.

Lemma task_candidates_distinct_witness :
  (0 <= task_start 0 /\
   run_batches demo_tmpl 1 (task_start 0) =
     Some (expected_batch demo_tmpl BATCH_SIZE (task_start 0), task_start 0 + 1000)) /\
  NoDup (expected_batch demo_tmpl BATCH_SIZE (task_start 0)) /\
  Forall (fun tx => tx_to tx = tx_to demo_tmpl /\ tx_data tx = tx_data demo_tmpl /\
                    tx_nonce tx = tx_nonce demo_tmpl /\ tx_gas tx = tx_gas demo_tmpl /\
                    tx_chain_id tx = tx_chain_id demo_tmpl /\
                    max_priority_fee_per_gas tx = Some priority_fee)
    (expected_batch demo_tmpl BATCH_SIZE (task_start 0)) /\
  task_start 0 + 1000 = task_start 0 + Z.of_nat (1 * BATCH_SIZE).
Proof.
  assert (H1 : 0 <= task_start 0) by (vm_compute; discriminate).
  assert (H2 : run_batches demo_tmpl 1 (task_start 0) =
                 Some (expected_batch demo_tmpl BATCH_SIZE (task_start 0), task_start 0 + 1000))
    by (vm_compute; reflexivity).
  split; [exact (conj H1 H2)|].
  exact (task_candidates_distinct demo_tmpl 1 (task_start 0) _ _ H1 H2).
Defined.

Lemma be_min_aux_length (f : nat) (n : Z) (acc : list byte) :
  (length (Rlp.be_min_aux f n acc) <= f + length acc)%nat.
Proof.
  revert n acc. induction f as [|f IH]; intros n acc; cbn [Rlp.be_min_aux]; [lia|].
  destruct (n =? 0); [lia|]. specialize (IH (n / 256) (Keccak.byte_of_Z (n mod 256) :: acc)).
  cbn [length] in IH. lia.
Qed.

Lemma be_min_bounds (n : Z) :
  0 < n <= U256.MAX ->
  (1 <= length (Rlp.be_min n) <= 32)%nat /\
  exists b rest, Rlp.be_min n = b :: rest /\
    (rest = [] -> Keccak.Z_of_byte b = n).
Proof.
  intros Hn.
  assert (Hb : 0 < n < 256 ^ Z.of_nat 32) by (unfold U256.MAX in Hn; cbn; lia).
  pose proof (be_min_aux_length 32 n []) as Hl.
  destruct (be_min_aux_lead 32 n [] Hb) as (b & rest & He & _).
  pose proof (be_min_aux_value 32 n [] ltac:(lia)) as Hv.
  unfold Rlp.be_min. rewrite He in Hl, Hv |- *. cbn [length] in Hl |- *.
  split; [lia|]. exists b, rest. split; [reflexivity|].
  intros ->. cbn in Hv. lia.
Qed.

(** [stream.append(&nonce)] for a [U256] nonce: [0] is the empty string
    [0x80], a nonce below [0x80] is its single byte, any other nonce is
    [0x80 + k] followed by its [k] big-endian bytes, [1 <= k <= 32]
    (leading zeros dropped). *)
Theorem nonce_rlp_encoding (n : Z) :
  0 <= n <= U256.MAX ->
  Rlp.encode_u256 n =
    (if n =? 0 then [x80]
     else if n <? 128 then [Keccak.byte_of_Z n]
     else Keccak.byte_of_Z (128 + Z.of_nat (length (Rlp.be_min n))) :: Rlp.be_min n) /\
  (0 < n -> (1 <= length (Rlp.be_min n) <= 32)%nat).
Proof.
  intros Hn. destruct (Z.eqb_spec n 0) as [->|Hn0]; [split; [reflexivity | lia]|].
  destruct (be_min_bounds n ltac:(lia)) as (Hlen & b & rest & He & Hone).
  split; [|intros; exact Hlen].
  unfold Rlp.encode_u256, Rlp.encode_value. rewrite He. rewrite He in Hlen.
  destruct rest as [|b' rest].
  - specialize (Hone eq_refl). unfold Keccak.Z_of_byte in Hone.
    destruct (Z.ltb_spec n 128) as [Hlt|Hge].
    + rewrite (proj2 (Nat.ltb_lt _ _)) by lia. f_equal.
      rewrite <- Hone. unfold Keccak.byte_of_Z. rewrite Nat2Z.id, Byte.of_to_nat. reflexivity.
    + rewrite (proj2 (Nat.ltb_ge _ _)) by lia. reflexivity.
  - destruct (Z.ltb_spec n 128) as [Hlt|Hge].
    + exfalso. pose proof (be_min_aux_value 32 n [] ltac:(cbn; unfold U256.MAX in Hn; lia)) as Hv.
      unfold Rlp.be_min in He. rewrite He in Hv. cbn [fold_left] in Hv.
      assert (Hfold : forall l a, 256 <= a ->
                a <= fold_left (fun acc b => acc * 256 + Keccak.Z_of_byte b) l a).
      { induction l as [|x l IHl]; intros a Ha; cbn [fold_left]; [lia|].
        assert (Hx : 0 <= Keccak.Z_of_byte x) by (unfold Keccak.Z_of_byte; lia).
        pose proof (IHl (a * 256 + Keccak.Z_of_byte x) ltac:(lia)). lia. }
      destruct (be_min_aux_lead 32 n [] ltac:(cbn; unfold U256.MAX in Hn; lia))
        as (b0 & r0 & He0 & Hb0).
      rewrite He in He0. injection He0 as <- _.
      pose proof (Hfold rest ((0 * 256 + Keccak.Z_of_byte b) * 256 + Keccak.Z_of_byte b')) as Hf.
      assert (Hb' : 0 <= Keccak.Z_of_byte b') by (unfold Keccak.Z_of_byte; lia).
      assert (Hb1 : 0 <= Keccak.Z_of_byte b) by (unfold Keccak.Z_of_byte; lia).
      lia.
    + cbn [length] in Hlen |- *.
      rewrite (proj2 (Nat.leb_le (S (S (length rest))) 55)) by lia. reflexivity.
Qed.

Lemma nonce_rlp_encoding_witness :
  0 <= 300 <= U256.MAX /\
  Rlp.encode_u256 300 =
    (if 300 =? 0 then [x80]
     else if 300 <? 128 then [Keccak.byte_of_Z 300]
     else Keccak.byte_of_Z (128 + Z.of_nat (length (Rlp.be_min 300))) :: Rlp.be_min 300) /\
  (0 < 300 -> (1 <= length (Rlp.be_min 300) <= 32)%nat).
Proof.
  assert (H : 0 <= 300 <= U256.MAX) by (unfold U256.MAX; lia).
  split; [exact H|].
  exact (nonce_rlp_encoding 300 H).
Defined.

Lemma byte_Z_to_nat (z : Z) : 0 <= z < 256 -> Z.of_nat (Byte.to_nat (Rlp.byte_Z z)) = z.
Proof. intros Hz. exact (Z_of_byte_of_Z z Hz). Qed.

Lemma encode_value_short (v : list byte) :
  (length v <= 55)%nat ->
  (exists b, v = [b] /\ (Byte.to_nat b < 128)%nat /\ Rlp.encode_value v = v) \/
  (exists c, Rlp.encode_value v = c :: v /\ (128 <= Byte.to_nat c)%nat).
Proof.
  intros Hl. destruct v as [|b [|b' v]].
  - right. exists x80. split; [reflexivity | cbn; lia].
  - cbn [Rlp.encode_value]. destruct (Nat.ltb_spec (Byte.to_nat b) 128) as [Hlt|Hge].
    + left. exists b. auto.
    + right. exists (Rlp.byte_Z 129). split; [reflexivity|].
      pose proof (byte_Z_to_nat 129 ltac:(lia)). lia.
  - right. cbn [Rlp.encode_value].
    rewrite (proj2 (Nat.leb_le _ 55) Hl).
    exists (Rlp.byte_Z (128 + Z.of_nat (length (b :: b' :: v)))). split; [reflexivity|].
    pose proof (byte_Z_to_nat (128 + Z.of_nat (length (b :: b' :: v))) ltac:(lia)). lia.
Qed.

Lemma encode_value_inj (v1 v2 : list byte) :
  (length v1 <= 55)%nat -> (length v2 <= 55)%nat ->
  Rlp.encode_value v1 = Rlp.encode_value v2 -> v1 = v2.
Proof.
  intros H1 H2 He.
  destruct (encode_value_short v1 H1) as [(b1 & -> & Hb1 & E1)|(c1 & E1 & Hc1)];
  destruct (encode_value_short v2 H2) as [(b2 & -> & Hb2 & E2)|(c2 & E2 & Hc2)];
    rewrite E1, E2 in He; try congruence.
  - injection He as -> ->. lia.
  - injection He as <- ->. lia.
Qed.

Lemma encode_address_20 (a : list byte) :
  length a = 20%nat -> Rlp.encode_address a = Rlp.byte_Z 148 :: a.
Proof.
  intros Hl. unfold Rlp.encode_address.
  destruct a as [|b [|b' a]]; cbn in Hl; try lia.
  assert (Ha : length a = 18%nat) by lia.
  cbn [Rlp.encode_value length]. rewrite Ha. reflexivity.
Qed.

Lemma encode_u256_length (n : Z) :
  (length (Rlp.be_min n) <= 32)%nat /\ (length (Rlp.encode_u256 n) <= 33)%nat.
Proof.
  pose proof (be_min_aux_length 32 n []) as Hl. cbn [length] in Hl.
  unfold Rlp.be_min. split; [lia|]. unfold Rlp.encode_u256, Rlp.be_min.
  destruct (encode_value_short (Rlp.be_min_aux 32 n []) ltac:(lia))
    as [(b & Hb & _ & ->)|(c & -> & _)]; cbn [length]; lia.
Qed.

(** The preimage [stream.out()] hashed by [get_contract_address] determines
    the sender and the nonce: two (20-byte sender, [U256] nonce) pairs that
    differ are encoded differently, so they are hashed from different
    inputs. *)
Theorem contract_preimage_injective (s1 s2 : list byte) (n1 n2 : Z) :
  length s1 = 20%nat -> length s2 = 20%nat ->
  0 <= n1 <= U256.MAX -> 0 <= n2 <= U256.MAX ->
  Rlp.out (Rlp.append (Rlp.append (Rlp.new_list 2) (Rlp.encode_address s1)) (Rlp.encode_u256 n1)) =
  Rlp.out (Rlp.append (Rlp.append (Rlp.new_list 2) (Rlp.encode_address s2)) (Rlp.encode_u256 n2)) ->
  s1 = s2 /\ n1 = n2.
Proof.
  intros Hl1 Hl2 Hn1 Hn2 Heq.
  unfold Rlp.out, Rlp.append, Rlp.new_list in Heq. cbn [Rlp.rs_items Rlp.rs_len app length Nat.eqb concat] in Heq.
  rewrite !app_nil_r, !encode_address_20 in Heq by assumption.
  injection Heq as Heq.
  destruct (encode_u256_length n1) as [Hb1 He1]. destruct (encode_u256_length n2) as [Hb2 He2].
  unfold Rlp.list_header in Heq. cbn [length] in Heq. rewrite !length_app in Heq.
  rewrite (proj2 (Nat.leb_le _ 55)) in Heq by lia.
  rewrite (proj2 (Nat.leb_le _ 55)) in Heq by lia.
  cbn [app] in Heq. injection Heq as _ Heq.
  apply app_inj_1 in Heq as [-> Heu]; [|congruence].
  split; [reflexivity|].
  unfold Rlp.encode_u256 in Heu. apply encode_value_inj in Heu; [|lia|lia].
  pose proof (be_min_aux_value 32 n1 [] ltac:(cbn; unfold U256.MAX in Hn1; lia)) as V1.
  pose proof (be_min_aux_value 32 n2 [] ltac:(cbn; unfold U256.MAX in Hn2; lia)) as V2.
  unfold Rlp.be_min in Heu. rewrite Heu in V1. cbn [fold_left] in V1, V2. congruence.
Qed.

Lemma contract_preimage_injective_witness :
  (length ref_sender = 20%nat /\ 0 <= 1 <= U256.MAX /\
   Rlp.out (Rlp.append (Rlp.append (Rlp.new_list 2) (Rlp.encode_address ref_sender)) (Rlp.encode_u256 1)) =
   Rlp.out (Rlp.append (Rlp.append (Rlp.new_list 2) (Rlp.encode_address ref_sender)) (Rlp.encode_u256 1))) /\
  ref_sender = ref_sender /\ 1 = 1.
Proof.
  assert (H1 : length ref_sender = 20%nat) by reflexivity.
  assert (H2 : 0 <= 1 <= U256.MAX) by (unfold U256.MAX; lia).
  assert (H3 : Rlp.out (Rlp.append (Rlp.append (Rlp.new_list 2) (Rlp.encode_address ref_sender))
                          (Rlp.encode_u256 1)) =
               Rlp.out (Rlp.append (Rlp.append (Rlp.new_list 2) (Rlp.encode_address ref_sender))
                          (Rlp.encode_u256 1))) by reflexivity.
  split; [exact (conj H1 (conj H2 H3))|].
  exact (contract_preimage_injective ref_sender ref_sender 1 1 H1 H1 H2 H2 H3).
Defined.

Lemma worker_init_start (i : nat) (b : Z) : worker_init i = WLoop b -> b = task_start i.
Proof.
  unfold worker_init, worker_start, U64.mul, U256.add, task_start.
  destruct (Z.of_nat i * THREAD_OFFSET_SPACING <=? U64.MAX); [|discriminate].
  destruct (base_fee_start + Z.of_nat i * THREAD_OFFSET_SPACING <=? U256.MAX); [|discriminate].
  congruence.
Qed.

Lemma lookup_map_seq_init (n i : nat) (w : wstate) :
  map worker_init (seq 0 n) !! i = Some w -> w = worker_init i.
Proof.
  assert (Hgen : forall m l, map worker_init (seq m l) !! i = Some w -> w = worker_init (m + i)).
  { revert w. induction i as [|i IH]; intros w m l Hl; destruct l as [|l]; try discriminate.
    - cbn in Hl. injection Hl as <-. f_equal. lia.
    - cbn in Hl. rewrite (IH w (S m) l Hl). f_equal. lia. }
  apply Hgen.
Qed.

Lemma task_start_pos (i : nat) : 0 <= task_start i.
Proof. unfold task_start, base_fee_start, THREAD_OFFSET_SPACING. lia. Qed.

Lemma wstep_pos sign p gas tmpl f i w f' w' m :
  terminated w = false -> wpos_inv tmpl i w ->
  wstep sign p gas tmpl f w = (f', w', m) -> wpos_inv tmpl i w'.
Proof.
  intros Ht Hw Hs. pose proof (task_start_pos i) as H0.
  destruct w as [b|[|tx rest] b|tx r h b|o| |]; cbn in Ht; try discriminate;
    cbv beta iota delta [wstep swap_true negb] in Hs.
  - destruct Hw as [k ->]. destruct f; [injection Hs as _ <- _; exact I|].
    destruct (gen_batch tmpl BATCH_SIZE (task_start i + Z.of_nat (k * BATCH_SIZE)))
      as [[batch b']|] eqn:Hg; injection Hs as _ <- _; [|exact I].
    apply gen_batch_some in Hg as [-> ->]; [|lia].
    exists k, []. split; [|reflexivity]. unfold BATCH_SIZE. lia.
  - injection Hs as _ <- _. destruct Hw as (k & pre & -> & _).
    exists (S k). reflexivity.
  - destruct Hw as (k & pre & -> & Hpre).
    destruct f; [injection Hs as _ <- _; exists (S k); reflexivity|].
    destruct (sign tx) as [err|[r h]].
    + injection Hs as _ <- _. exists k, (pre ++ [tx]). split; [reflexivity|].
      rewrite <- app_assoc. exact Hpre.
    + destruct (hash_matches p h); injection Hs as _ <- _.
      * exists k. split; [reflexivity|]. rewrite <- Hpre.
        apply elem_of_app. right. apply elem_of_cons. left. reflexivity.
      * exists k, (pre ++ [tx]). split; [reflexivity|].
        rewrite <- app_assoc. exact Hpre.
  - destruct Hw as (k & -> & _). destruct f.
    + injection Hs as _ <- _. exists (S k). reflexivity.
    + destruct (total_fee gas tx); injection Hs as _ <- _; exact I.
  - injection Hs as _ <- _. exact I.
Qed.

Lemma pos_inv_step sign p gas tmpl s s' :
  pos_inv tmpl s -> gstep sign p gas tmpl s s' -> pos_inv tmpl s'.
Proof.
  intros Hp Hst. destruct Hst as [s i w f' w' m Hi Ht Hs].
  intros j wj Hj. cbn [g_workers] in Hj. rewrite (lookup_insert_cases _ _ _ _ _ Hi) in Hj.
  destruct (Nat.eqb_spec i j) as [<-|_].
  - injection Hj as <-. eapply wstep_pos; eauto.
  - eapply Hp; eauto.
Qed.

Lemma pos_inv_reachable sign p gas tmpl n s :
  reachable sign p gas tmpl n s -> pos_inv tmpl s.
Proof.
  unfold reachable. intros Hr.
  assert (Hgen : forall s0, rtc (gstep sign p gas tmpl) s0 s -> pos_inv tmpl s0 -> pos_inv tmpl s).
  { clear Hr. intros s0 H. induction H as [x|x y z Hxy _ IH]; auto.
    intros Hx. apply IH. eapply pos_inv_step; eauto. }
  apply (Hgen _ Hr). intros i w Hi. unfold init in Hi. cbn [g_workers] in Hi.
  apply lookup_map_seq_init in Hi as ->.
  destruct (worker_init i) eqn:E; try exact I;
    try (unfold worker_init in E; destruct (worker_start i); discriminate).
  apply worker_init_start in E as ->. exists 0%nat. cbn. lia.
Qed.

Lemma in_round_range tmpl i k tx :
  tx ∈ expected_batch tmpl BATCH_SIZE (task_start i + Z.of_nat (k * BATCH_SIZE)) ->
  exists j, (j < S k * BATCH_SIZE)%nat /\
    tx = set_fees tmpl (task_start i + Z.of_nat j + priority_fee) priority_fee.
Proof.
  intros Hin. apply elem_of_expected_batch in Hin as (k' & Hk' & ->).
  exists (k * BATCH_SIZE + k')%nat. split; [unfold BATCH_SIZE in *; lia|]. f_equal. lia.
Qed.

(** In every state of the interleaved search, whatever the schedule, the
    candidate task [i] is about to [swap] for, and every candidate left in
    the batch it is processing, is the template with base fee
    [task_start i + j] (i.e. max fee [task_start i + j + priority_fee]),
    where [j] is below the number of fees the task has generated so far:
    each task signs only the fees of its own range, in order, block after
    block of [BATCH_SIZE]. *)
Theorem task_candidates_in_own_range sign p gas tmpl n s i :
  reachable sign p gas tmpl n s ->
  (forall tx r h b, g_workers s !! i = Some (WSwap tx r h b) ->
     exists k j, b = task_start i + Z.of_nat (S k * BATCH_SIZE) /\ (j < S k * BATCH_SIZE)%nat /\
       tx = set_fees tmpl (task_start i + Z.of_nat j + priority_fee) priority_fee) /\
  (forall batch b tx, g_workers s !! i = Some (WBatch batch b) -> tx ∈ batch ->
     exists k j, b = task_start i + Z.of_nat (S k * BATCH_SIZE) /\ (j < S k * BATCH_SIZE)%nat /\
       tx = set_fees tmpl (task_start i + Z.of_nat j + priority_fee) priority_fee).
Proof.
  intros Hr. pose proof (pos_inv_reachable _ _ _ _ _ _ Hr) as Hp. split.
  - intros tx r h b Hi. destruct (Hp i _ Hi) as (k & -> & Hin).
    destruct (in_round_range _ _ _ _ Hin) as (j & Hj & ->).
    exists k, j. auto.
  - intros batch b tx Hi Htx. destruct (Hp i _ Hi) as (k & pre & -> & Hpre).
    assert (Hin : tx ∈ expected_batch tmpl BATCH_SIZE (task_start i + Z.of_nat (k * BATCH_SIZE))).
    { rewrite <- Hpre. apply elem_of_app. right. exact Htx. }
    destruct (in_round_range _ _ _ _ Hin) as (j & Hj & ->).
    exists k, j. auto.
Qed.

Lemma task_candidates_in_own_range_witness :
  reachable stub_sign "0xff" 21000 demo_tmpl 2 demo_search /\
  (forall tx r h b, g_workers demo_search !! 1%nat = Some (WSwap tx r h b) ->
     exists k j, b = task_start 1 + Z.of_nat (S k * BATCH_SIZE) /\ (j < S k * BATCH_SIZE)%nat /\
       tx = set_fees demo_tmpl (task_start 1 + Z.of_nat j + priority_fee) priority_fee) /\
  (forall batch b tx, g_workers demo_search !! 1%nat = Some (WBatch batch b) -> tx ∈ batch ->
     exists k j, b = task_start 1 + Z.of_nat (S k * BATCH_SIZE) /\ (j < S k * BATCH_SIZE)%nat /\
       tx = set_fees demo_tmpl (task_start 1 + Z.of_nat j + priority_fee) priority_fee).
Proof.
  assert (H : reachable stub_sign "0xff" 21000 demo_tmpl 2 demo_search) by apply run_reachable.
  split; [exact H|].
  exact (task_candidates_in_own_range stub_sign "0xff" 21000 demo_tmpl 2 demo_search 1%nat H).
Defined.
